(** * Verification of the statistics service in [PythonApi/main.py]

    The handlers [analyze_data], [generate_sample_data] and [ml_predict] are
    embedded as Rocq functions over IEEE-754 binary64 numbers.  Python's
    [float] is a C [double]; its arithmetic is modelled with the Standard
    Library's executable specification [SpecFloat] at precision 53 and maximal
    exponent 1024, so every definition below evaluates with [vm_compute].
    What the interpreter and its libraries compute outside the repository
    enters as a parameter: the builtin [sum], the power operator [**] and the
    random generator. *)

From Stdlib Require Import ZArith List Bool Lia String Permutation Sorted.
From Stdlib Require Import SpecFloat PrimFloat FloatOps DecimalString.
From stdpp Require Import gmap.
Import ListNotations.
Local Open Scope Z_scope.

(** Decimal literals that are not binary64 numbers stand for the nearest
    one, as in Python; the parser need not say so each time. *)
Set Warnings "-inexact-float".

(** ** Binary64 arithmetic *)

Module Float64.

Definition float := spec_float.

Definition prec : Z := 53.
Definition emax : Z := 1024.

Definition add : float -> float -> float := SFadd prec emax.
Definition sub : float -> float -> float := SFsub prec emax.
Definition mul : float -> float -> float := SFmul prec emax.
Definition div : float -> float -> float := SFdiv prec emax.
Definition sqrt : float -> float := SFsqrt prec emax.

(** Python's [<], [<=] and [==] on floats: all false when a NaN is involved,
    and [0.0 == -0.0]. *)
Definition ltb : float -> float -> bool := SFltb.
Definition leb : float -> float -> bool := SFleb.
Definition eqb : float -> float -> bool := SFeqb.

Definition pos_zero : float := S754_zero false.

(** [float(n)] for a Python integer: the nearest binary64, ties to even.
    The integers converted here are list lengths and small constants, far
    below [2^1024], where Python would refuse the conversion. *)
Definition of_int (n : Z) : float := binary_normalize prec emax n 0 false.

(** A decimal or hexadecimal literal of the source, read as the nearest
    binary64 by the kernel's float parser. *)
Definition lit (x : PrimFloat.float) : float := Prim2SF x.

Definition is_nan (x : float) : bool :=
  match x with S754_nan => true | _ => false end.

Definition is_finite (x : float) : bool :=
  match x with S754_zero _ | S754_finite _ _ _ => true | _ => false end.

(** The sign bit, read as clear on NaN. *)
Definition signbit (x : float) : bool :=
  match x with
  | S754_zero s | S754_infinity s | S754_finite s _ _ => s
  | S754_nan => false
  end.

Definition valid (x : float) : bool := valid_binary prec emax x.

End Float64.

Import Float64.

(** ** Python builtins used by the handlers *)

Module Py.

Inductive exception :=
  | OverflowError | ZeroDivisionError | IndexError | ValueError | TypeError.

Inductive result (A : Type) :=
  | Ok (a : A)
  | Raise (e : exception).
Arguments Ok {A} a.
Arguments Raise {A} e.

Definition bind {A B} (m : result A) (k : A -> result B) : result B :=
  match m with
  | Ok a => k a
  | Raise e => Raise e
  end.

Notation "'let*' x ':=' m 'in' k" := (bind m (fun x => k))
  (at level 10, x name, m at level 100, k at level 200).

Fixpoint mapM {A B} (f : A -> result B) (l : list A) : result (list B) :=
  match l with
  | [] => Ok []
  | x :: l' =>
      let* y := f x in
      let* ys := mapM f l' in
      Ok (y :: ys)
  end.

(** [len(l)] *)
Definition len {A} (l : list A) : Z := Z.of_nat (length l).

(** [l[i]]: a negative index counts from the end; out of range raises. *)
Definition getitem (l : list float) (i : Z) : result float :=
  let j := if i <? 0 then i + len l else i in
  if (j <? 0) || (len l <=? j) then Raise IndexError
  else match nth_error l (Z.to_nat j) with
       | Some x => Ok x
       | None => Raise IndexError
       end.

(** [range(n)]: empty when [n <= 0]. *)
Definition range (n : Z) : list Z := map Z.of_nat (seq 0 (Z.to_nat n)).

(** [x / y] on floats. *)
Definition truediv (x y : float) : result float :=
  if eqb y pos_zero then Raise ZeroDivisionError else Ok (div x y).

(** [x ** 2].  NaN is returned as it is, an infinity gives [inf], a zero
    gives [0.0]; otherwise the C library computes [pow(|x|, 2.0)] and an
    overflowing result raises [OverflowError].  The library's [pow] is taken
    to be correctly rounded at this exponent. *)
Definition pow_2 (x : float) : result float :=
  match x with
  | S754_nan => Ok S754_nan
  | S754_infinity _ => Ok (S754_infinity false)
  | S754_zero _ => Ok pos_zero
  | S754_finite _ m e =>
      match mul (S754_finite false m e) (S754_finite false m e) with
      | S754_infinity _ => Raise OverflowError
      | r => Ok r
      end
  end.

(** [x ** 0.5].  NaN is returned as it is, an infinity gives [inf], a zero
    gives [0.0].  A negative base gives a complex number, which the later
    [round(std_dev, 2)] rejects with [TypeError]; nothing between the two can
    fail, so the exception is attached here.  Otherwise the C library computes
    [pow(x, 0.5)], taken to be the correctly rounded square root. *)
Definition pow_half (x : float) : result float :=
  match x with
  | S754_nan => Ok S754_nan
  | S754_infinity _ => Ok (S754_infinity false)
  | S754_zero _ => Ok pos_zero
  | S754_finite true _ _ => Raise TypeError
  | S754_finite false _ _ => Ok (sqrt x)
  end.

(** The integer nearest to [p / q] for [q > 0], ties to the even one. *)
Definition round_half_even (p q : Z) : Z :=
  let k := p / q in
  match 2 * (p mod q) ?= q with
  | Lt => k
  | Gt => k + 1
  | Eq => if Z.even k then k else k + 1
  end.

(** The number of hundredths nearest to [m * 2^e], ties to even. *)
Definition hundredths (m : positive) (e : Z) : Z :=
  if 0 <=? e then 100 * Zpos m * 2 ^ e
  else round_half_even (100 * Zpos m) (2 ^ (- e)).

(** The binary64 nearest to [k / 100], with sign [s]. *)
Definition of_hundredths (s : bool) (k : Z) : float :=
  match k with
  | Zpos p => div (S754_finite s p 0) (S754_finite false 100 0)
  | _ => S754_zero s
  end.

(** [round(x, 2)].  CPython prints the exact binary value of [x] with two
    digits after the point, correctly rounded and with ties to even, and reads
    the decimal string back as the nearest binary64; zeros, infinities and NaN
    round to themselves. *)
Definition round2 (x : float) : float :=
  match x with
  | S754_finite s m e => of_hundredths s (hundredths m e)
  | _ => x
  end.

(** [sorted(l)] on floats.  Python's sort is stable and compares with [<];
    on numbers without NaN the stable sorted list is unique, and insertion
    from the right computes it. *)
Fixpoint insert (x : float) (l : list float) : list float :=
  match l with
  | [] => [x]
  | y :: l' => if ltb y x then y :: insert x l' else x :: y :: l'
  end.

Definition sorted (l : list float) : list float := fold_right insert [] l.

(** [min(l)] and [max(l)]: the first item is kept until a later one is
    strictly smaller (larger); an empty argument raises [ValueError]. *)
Definition min_ (l : list float) : result float :=
  match l with
  | [] => Raise ValueError
  | x :: l' => Ok (fold_left (fun m y => if ltb y m then y else m) l' x)
  end.

Definition max_ (l : list float) : result float :=
  match l with
  | [] => Raise ValueError
  | x :: l' => Ok (fold_left (fun m y => if ltb m y then y else m) l' x)
  end.

(** [sum(l)] on a non-empty list of floats starts from the integer [0].
    Up to CPython 3.11 the items are added from left to right. *)
Definition sum_left (l : list float) : float := fold_left add l pos_zero.

(** From CPython 3.12 on the float loop keeps a compensation term [c]
    (Neumaier's summation), added at the end when it is finite and not zero. *)
Fixpoint neumaier (f c : float) (l : list float) : float :=
  match l with
  | [] => if is_finite c && negb (eqb c pos_zero) then add f c else f
  | x :: l' =>
      let t := add f x in
      let c' :=
        if leb (SFabs x) (SFabs f) then add c (add (sub f t) x)
        else add c (add (sub x t) f) in
      neumaier t c' l'
  end.

Definition sum_compensated (l : list float) : float :=
  match l with
  | [] => pos_zero
  | x :: l' => neumaier (add pos_zero x) pos_zero l'
  end.

End Py.

Import Py.

(** ** The handlers of [main.py] *)

Module PythonApi.

Record DataPoint := { value : float; timestamp : string }.

Record AnalysisResult := {
  mean : float;
  median : float;
  std_dev : float;
  min : float;
  max : float;
  count : Z
}.

Section Analyze.

(** The interpreter's [sum]: [Py.sum_left] or [Py.sum_compensated]. *)
Variable py_sum : list float -> float.

(** Lines 78-81. *)
Definition median_of (sorted_values : list float) (n : Z) : result float :=
  if n mod 2 =? 0 then
    let* a := getitem sorted_values (n / 2 - 1) in
    let* b := getitem sorted_values (n / 2) in
    truediv (add a b) (of_int 2)
  else getitem sorted_values (n / 2).

Section Power.

(** The interpreter's [x ** 2] and [x ** 0.5] on floats.  CPython hands
    both to the C library's [pow], which is not part of the repository and
    need not round correctly, so the handler takes them as it takes [sum]. *)
Variable py_pow_2 : float -> result float.
Variable py_pow_half : float -> result float.

(** Line 84. *)
Definition variance_with (values : list float) (mean : float) (n : Z)
  : result float :=
  let* squares := mapM (fun x => py_pow_2 (sub x mean)) values in
  truediv (py_sum squares) (of_int n).

(** [POST /analyze] *)
Definition analyze_data_with (data : list DataPoint) : result AnalysisResult :=
  let values := map value data in
  match values with
  | [] =>
      Ok {| mean := of_int 0; median := of_int 0; std_dev := of_int 0;
            min := of_int 0; max := of_int 0; count := 0 |}
  | _ :: _ =>
      let sorted_values := sorted values in
      let n := len values in
      let* mean := truediv (py_sum values) (of_int n) in
      let* median := median_of sorted_values n in
      let* variance := variance_with values mean n in
      let* std_dev := py_pow_half variance in
      let* lo := min_ values in
      let* hi := max_ values in
      Ok {| mean := round2 mean; median := round2 median;
            std_dev := round2 std_dev; min := lo; max := hi; count := n |}
  end.

End Power.

(** Line 84 and the handler with a C library whose [pow] rounds correctly at
    the exponents [2] and [0.5]: [Py.pow_2] and [Py.pow_half]. *)
Definition variance_of (values : list float) (mean : float) (n : Z)
  : result float :=
  variance_with pow_2 values mean n.

Definition analyze_data (data : list DataPoint) : result AnalysisResult :=
  analyze_data_with pow_2 pow_half data.

End Analyze.

Record SampleResponse := { data : list DataPoint; data_count : Z }.

Section Generate.

(** State of the process-wide generator behind [random]. *)
Variable rng : Type.

(** [random.uniform(a, b)] on integer bounds: a float and the next state. *)
Variable uniform : Z -> Z -> rng -> float * rng.

(** [datetime.isoformat()], on a time in microseconds. *)
Variable isoformat : Z -> string.

(** Lines 106-112: one draw per index, in index order. *)
Fixpoint sample_points (base_time : Z) (indices : list Z) (g : rng)
  : list DataPoint * rng :=
  match indices with
  | [] => ([], g)
  | i :: rest =>
      let (u, g1) := uniform 10 100 g in
      let point :=
        {| value := round2 u;
           timestamp := isoformat (base_time - 1000000 * i) |} in
      let (points, g2) := sample_points base_time rest g1 in
      (point :: points, g2)
  end.

(** [GET /generate-sample/{count}]; [now] is what [datetime.now()] reads.
    [g] is the state of the random generator when the comprehension of line
    106 starts: the span opened on line 99 belongs to the tracing library,
    which may have drawn from the same generator before. *)
Definition generate_sample_data (count : Z) (now : Z) (g : rng)
  : SampleResponse * rng :=
  let count := if 1000 <? count then 1000 else count in
  let base_time := now in
  let (data, g') := sample_points base_time (range count) g in
  ({| data := data; data_count := len data |}, g').

End Generate.

End PythonApi.

Import PythonApi.

(** ** The prediction handler of [main.py] *)

Module Predictor.

(** The dictionary returned by [ml_predict]. *)
Record Prediction := {
  input : float;
  prediction : float;
  confidence : float;
  model : string
}.

Section Predict.

Variable rng : Type.

(** [random.uniform(a, b)]; integer bounds enter its arithmetic as floats. *)
Variable uniform : float -> float -> rng -> float * rng.

(** [GET /ml-predict/{value}]: the noise is drawn first, the confidence
    second.  [g] is the state of the random generator when line 121 is
    reached, after the span of line 119 is opened. *)
Definition ml_predict (value : float) (g : rng) : Prediction * rng :=
  let (noise, g1) := uniform (of_int (-5)) (of_int 5) g in
  let prediction := add (mul value (lit 1.5)) noise in
  let (confidence, g2) := uniform (lit 0.7) (lit 0.99) g1 in
  ({| input := value;
      prediction := round2 prediction;
      confidence := round2 confidence;
      model := "mock_linear_v1" |}, g2).

End Predict.

End Predictor.

Import Predictor.

(** ** The handler over a store of list objects

    Python lists are mutable objects reached through references.  The store
    maps a reference to the list it denotes; the handler receives [data] as a
    reference, and every list it builds is a fresh object. *)

Module Store.

Definition ref := positive.

Inductive object :=
  | Points (l : list DataPoint)
  | Floats (l : list float).

Definition alloc (o : object) (h : gmap ref object) : ref * gmap ref object :=
  let a := fresh (dom h) in (a, <[a := o]> h).

Definition points_at (h : gmap ref object) (a : ref) : list DataPoint :=
  match h !! a with Some (Points l) => l | _ => [] end.

Definition floats_at (h : gmap ref object) (a : ref) : list float :=
  match h !! a with Some (Floats l) => l | _ => [] end.

(** [sorted(a)] returns a new list and leaves its argument alone. *)
Definition sorted_new (a : ref) (h : gmap ref object) : ref * gmap ref object :=
  alloc (Floats (sorted (floats_at h a))) h.

(** [a.sort()], which the handler does not call, sorts in place. *)
Definition sort_in_place (a : ref) (h : gmap ref object) : gmap ref object :=
  <[a := Floats (sorted (floats_at h a))]> h.

Section Analyze.

Variable py_sum : list float -> float.

(** [analyze_data] with its three list objects made explicit: [data] (the
    argument), [values] (line 65) and [sorted_values] (line 73). *)
Definition analyze_data_store (data : ref) (h : gmap ref object)
  : result AnalysisResult * gmap ref object :=
  let (values, h1) := alloc (Floats (map value (points_at h data))) h in
  match floats_at h1 values with
  | [] =>
      (Ok {| mean := of_int 0; median := of_int 0; std_dev := of_int 0;
             min := of_int 0; max := of_int 0; count := 0 |}, h1)
  | _ :: _ =>
      let (sorted_values, h2) := sorted_new values h1 in
      let n := len (floats_at h2 values) in
      (let* mean := truediv (py_sum (floats_at h2 values)) (of_int n) in
       let* median := median_of (floats_at h2 sorted_values) n in
       let* variance := variance_of py_sum (floats_at h2 values) mean n in
       let* std_dev := pow_half variance in
       let* lo := min_ (floats_at h2 values) in
       let* hi := max_ (floats_at h2 values) in
       Ok {| mean := round2 mean; median := round2 median;
             std_dev := round2 std_dev; min := lo; max := hi; count := n |},
       h2)
  end.

End Analyze.

End Store.

(** ** Inputs used in the examples *)

(** Data points carrying the given values, with empty timestamps. *)
Definition points_of (l : list float) : list DataPoint :=
  map (fun x => {| value := x; timestamp := EmptyString |}) l.

(** [[0.00390625]], that is [2 ** -8]. *)
Definition tiny_input : list float := [lit 0.00390625].

(** [[2.0 ** 1000, 0.0]]. *)
Definition huge_input : list float := [lit 0x1p1000; lit 0].

(** [[2.0**120, 2.0**60, 1.0, -2.0**60, -2.0**120]] and a reordering. *)
Definition cancelling_input : list float :=
  [lit 0x1p120; lit 0x1p60; lit 1; lit (-0x1p60); lit (-0x1p120)].

Definition cancelling_reordered : list float :=
  [lit 0x1p120; lit (-0x1p120); lit 0x1p60; lit (-0x1p60); lit 1].

(** [[3.0, 1.0, 2.0]]. *)
Definition small_input : list float := [lit 3; lit 1; lit 2].


(** [[0.1, 0.1, 0.1]]. *)
Definition tenths_input : list float := [lit 0.1; lit 0.1; lit 0.1].

(** [[1.7e308, 1.7e308]]. *)
Definition large_pair : list float := [lit 1.7e308; lit 1.7e308].

(** A generator with one bit of state that alternates between the two
    bounds, and a clock printed as the empty string. *)
Definition toggle_uniform (a b : Z) (g : bool) : float * bool :=
  (if g then of_int a else of_int b, negb g).

Definition no_isoformat (t : Z) : string := EmptyString.


(** ** Auxiliary notions for the statements *)

(** No NaN and no infinity among the values: the inputs the service is
    specified for. *)
Definition all_finite (l : list float) : Prop :=
  Forall (fun x => is_finite x = true) l.

(** [x <= y] as a proposition. *)
Definition le (x y : float) : Prop := leb x y = true.

(** Equal as numbers: the same float, or two zeros of any sign. *)
Definition num_eq (x y : float) : Prop :=
  x = y \/ (exists s t, x = S754_zero s /\ y = S754_zero t).

(** The position of a float in the order of [<=]: sign class first, then
    exponent and mantissa, mirrored for negative numbers. *)
Definition key (x : float) : Z * Z * Z :=
  match x with
  | S754_nan => (3, 0, 0)
  | S754_infinity true => (-2, 0, 0)
  | S754_infinity false => (2, 0, 0)
  | S754_zero _ => (0, 0, 0)
  | S754_finite false m e => (1, e, Zpos m)
  | S754_finite true m e => (-1, - e, Zneg m)
  end.

Definition lex_le (a b : Z * Z * Z) : Prop :=
  let '(a1, a2, a3) := a in
  let '(b1, b2, b3) := b in
  a1 < b1 \/ (a1 = b1 /\ (a2 < b2 \/ (a2 = b2 /\ a3 <= b3))).

(** No NaN among the values. *)
Definition no_nan (l : list float) : Prop :=
  Forall (fun x => is_nan x = false) l.

(** The sign bit is clear. *)
Definition nonneg (x : float) : Prop := signbit x = false.

(** [y] is [x] rounded to two decimal places: the binary64 nearest to
    [k / 100], where [k / 100] is the multiple of 0.01 closest to the exact
    value of [x], the even [k] on a tie.  With [x = m * 2^e], the exact
    [100 * |x|] is [num / den] below. *)
Definition rounded_to_2_places (x y : float) : Prop :=
  match x with
  | S754_finite s m e =>
      exists k : Z,
        let num := 100 * Zpos m * 2 ^ Z.max e 0 in
        let den := 2 ^ Z.max (- e) 0 in
        2 * Z.abs (num - k * den) <= den /\
        (2 * Z.abs (num - k * den) = den -> Z.even k = true) /\
        y = of_hundredths s k
  | _ => y = x
  end.


(** The two implementations of the builtin [sum]. *)
Definition builtin_sums : list (list float -> float) :=
  [sum_left; sum_compensated].

(** A generator for [ml_predict] that returns the lower bound and counts
    its calls. *)
Definition lower_uniform (a b : float) (g : nat) : float * nat := (a, S g).

(** A clock printed as its number of microseconds. *)
Definition decimal_isoformat (t : Z) : string :=
  NilZero.string_of_int (Z.to_int t).

(** A finite float of magnitude at most [B * 2^-1074], with exponent at most
    [E]; zeros included. *)
Definition small (B E : Z) (x : float) : Prop :=
  match x with
  | S754_zero _ => True
  | S754_finite _ m e => -1074 <= e <= E /\ Zpos m * 2 ^ (e + 1074) <= B
  | _ => False
  end.

(** A binary64 number of magnitude at most [2^510]. *)
Definition moderate (x : float) : Prop :=
  valid x = true /\ le (lit (-0x1p510)) x /\ le x (lit 0x1p510).

(** * Properties *)

(** ** The order on floats *)

Section Order.

Lemma leb_key (x y : float) :
  is_nan x = false -> is_nan y = false ->
  (leb x y = true <-> lex_le (key x) (key y)).
Proof.
  unfold leb, SFleb, SFcompare.
  destruct x as [sx|sx| |sx mx ex], y as [sy|sy| |sy my ey];
    try discriminate; intros _ _;
    try destruct sx; try destruct sy; cbn [key lex_le is_nan];
    try (split; [intros H; try discriminate H; lia | intros H; try reflexivity; lia]);
    change (Pos.compare_cont Eq mx my) with (Pos.compare mx my);
    destruct (Z.compare_spec ex ey); destruct (Pos.compare_spec mx my);
    cbn [CompOpp]; split; intros H'; try discriminate H'; try reflexivity; lia.
Qed.

Lemma ltb_key (x y : float) :
  is_nan x = false -> is_nan y = false ->
  (ltb x y = true <-> ~ lex_le (key y) (key x)).
Proof.
  unfold ltb, SFltb, SFcompare.
  destruct x as [sx|sx| |sx mx ex], y as [sy|sy| |sy my ey];
    try discriminate; intros _ _;
    try destruct sx; try destruct sy; cbn [key lex_le is_nan];
    try (split; [intros H; try discriminate H; lia | intros H; try reflexivity; lia]);
    change (Pos.compare_cont Eq mx my) with (Pos.compare mx my);
    destruct (Z.compare_spec ex ey); destruct (Pos.compare_spec mx my);
    cbn [CompOpp]; split; intros H'; try discriminate H'; try reflexivity; lia.
Qed.

Lemma lex_le_refl a : lex_le a a.
Proof. destruct a as [[a1 a2] a3]; cbn; lia. Qed.

Lemma lex_le_trans a b c : lex_le a b -> lex_le b c -> lex_le a c.
Proof.
  destruct a as [[a1 a2] a3], b as [[b1 b2] b3], c as [[c1 c2] c3]; cbn; lia.
Qed.

Lemma lex_le_total a b : lex_le a b \/ lex_le b a.
Proof. destruct a as [[a1 a2] a3], b as [[b1 b2] b3]; cbn; lia. Qed.

Lemma lex_le_antisym a b : lex_le a b -> lex_le b a -> a = b.
Proof.
  destruct a as [[a1 a2] a3], b as [[b1 b2] b3]; cbn; intros.
  repeat f_equal; lia.
Qed.

Lemma key_num_eq (x y : float) :
  is_nan x = false -> is_nan y = false -> key x = key y -> num_eq x y.
Proof.
  destruct x as [sx|sx| |sx mx ex], y as [sy|sy| |sy my ey];
    try discriminate; intros _ _;
    try destruct sx; try destruct sy; cbn [key]; intros H;
    try discriminate H; try (left; reflexivity);
    try (right; eexists; eexists; split; reflexivity);
    left; injection H as He Hm; f_equal; congruence || lia.
Qed.

Lemma finite_not_nan (x : float) : is_finite x = true -> is_nan x = false.
Proof. destruct x; simpl; congruence. Qed.

Lemma le_refl (x : float) : is_nan x = false -> le x x.
Proof. intros Hx. apply leb_key; auto using lex_le_refl. Qed.

Lemma le_trans (x y z : float) :
  is_nan x = false -> is_nan y = false -> is_nan z = false ->
  le x y -> le y z -> le x z.
Proof.
  unfold le; intros Hx Hy Hz Hxy Hyz.
  apply leb_key in Hxy, Hyz; auto.
  apply leb_key; eauto using lex_le_trans.
Qed.

Lemma ltb_le (x y : float) :
  is_nan x = false -> is_nan y = false -> ltb x y = true -> le x y.
Proof.
  intros Hx Hy H. apply ltb_key in H; auto.
  apply leb_key; auto. destruct (lex_le_total (key x) (key y)); tauto.
Qed.

Lemma not_ltb_le (x y : float) :
  is_nan x = false -> is_nan y = false -> ltb x y = false -> le y x.
Proof.
  intros Hx Hy H. apply leb_key; auto.
  assert (ltb x y <> true) as Hn by congruence.
  rewrite ltb_key in Hn by auto.
  revert Hn. generalize (key x) (key y).
  intros [[a1 a2] a3] [[b1 b2] b3]; cbn; lia.
Qed.

Lemma le_antisym (x y : float) :
  is_nan x = false -> is_nan y = false -> le x y -> le y x -> num_eq x y.
Proof.
  unfold le; intros Hx Hy Hxy Hyx.
  apply leb_key in Hxy, Hyx; auto.
  apply key_num_eq; auto using lex_le_antisym.
Qed.

End Order.

(** ** [sorted], [min] and [max] *)

Section Sorting.

Lemma all_finite_no_nan l : all_finite l -> no_nan l.
Proof. apply List.Forall_impl. apply finite_not_nan. Qed.

Lemma insert_perm x l : Permutation (insert x l) (x :: l).
Proof.
  induction l as [|y l IH]; simpl; auto.
  destruct (ltb y x); auto.
  rewrite IH. apply perm_swap.
Qed.

Lemma sorted_perm l : Permutation (sorted l) l.
Proof.
  induction l as [|x l IH]; simpl; auto.
  rewrite insert_perm. auto.
Qed.

Lemma sorted_length l : length (sorted l) = length l.
Proof. apply Permutation_length, sorted_perm. Qed.

Lemma no_nan_perm l l' : Permutation l l' -> no_nan l -> no_nan l'.
Proof. intros Hp. apply Permutation_Forall, Hp. Qed.

Lemma insert_sorted x l :
  is_nan x = false -> no_nan l ->
  StronglySorted le l -> StronglySorted le (insert x l).
Proof.
  intros Hx Hl Hs. induction Hs as [|y l Hs IH Hy]; simpl.
  - repeat constructor.
  - inversion Hl as [|? ? Hny Hl']; subst.
    destruct (ltb y x) eqn:E.
    + constructor; auto.
      eapply Permutation_Forall; [symmetry; apply insert_perm|].
      constructor; auto. apply ltb_le; auto.
    + assert (le x y) as Hxy by (apply not_ltb_le; auto).
      constructor; [constructor; auto|].
      constructor; auto.
      rewrite List.Forall_forall in *. intros z Hz.
      apply le_trans with y; auto.
Qed.

Lemma sorted_sorted l : no_nan l -> StronglySorted le (sorted l).
Proof.
  induction 1 as [|x l Hx Hl IH]; simpl; [constructor|].
  apply insert_sorted; auto.
  eapply no_nan_perm; [symmetry; apply sorted_perm|]; auto.
Qed.

Lemma min_fold_spec l x :
  no_nan (x :: l) ->
  let m := fold_left (fun m y => if ltb y m then y else m) l x in
  In m (x :: l) /\ le m x /\ Forall (le m) l.
Proof.
  revert x. induction l as [|y l IH]; intros x Hn; cbn zeta; cbn [fold_left].
  - inversion Hn; subst. split; [left; reflexivity|]. auto using le_refl.
  - inversion Hn as [|? ? Hx Hn']; subst. inversion Hn' as [|? ? Hy Hl]; subst.
    assert (no_nan (x :: l)) as Hxl by (constructor; auto).
    destruct (ltb y x) eqn:E.
    + destruct (IH y Hn') as (Hin & Hle & Hall).
      pose proof (proj1 (List.Forall_forall _ _) Hn' _ Hin) as Hm.
      split; [right; exact Hin|]. split; auto.
      apply le_trans with y; auto. apply ltb_le; auto.
    + destruct (IH x Hxl) as (Hin & Hle & Hall).
      pose proof (proj1 (List.Forall_forall _ _) Hxl _ Hin) as Hm.
      split; [destruct Hin as [Hin|Hin]; [left; exact Hin|right; right; exact Hin]|].
      split; auto.
      constructor; auto. apply le_trans with x; auto. apply not_ltb_le; auto.
Qed.

Lemma max_fold_spec l x :
  no_nan (x :: l) ->
  let m := fold_left (fun m y => if ltb m y then y else m) l x in
  In m (x :: l) /\ le x m /\ Forall (fun y => le y m) l.
Proof.
  revert x. induction l as [|y l IH]; intros x Hn; cbn zeta; cbn [fold_left].
  - inversion Hn; subst. split; [left; reflexivity|]. auto using le_refl.
  - inversion Hn as [|? ? Hx Hn']; subst. inversion Hn' as [|? ? Hy Hl]; subst.
    assert (no_nan (x :: l)) as Hxl by (constructor; auto).
    destruct (ltb x y) eqn:E.
    + destruct (IH y Hn') as (Hin & Hle & Hall).
      pose proof (proj1 (List.Forall_forall _ _) Hn' _ Hin) as Hm.
      split; [right; exact Hin|]. split; auto.
      apply le_trans with y; auto. apply ltb_le; auto.
    + destruct (IH x Hxl) as (Hin & Hle & Hall).
      pose proof (proj1 (List.Forall_forall _ _) Hxl _ Hin) as Hm.
      split; [destruct Hin as [Hin|Hin]; [left; exact Hin|right; right; exact Hin]|].
      split; auto.
      constructor; auto. apply le_trans with x; auto. apply not_ltb_le; auto.
Qed.

Lemma min_spec l m :
  no_nan l -> min_ l = Ok m -> In m l /\ Forall (le m) l.
Proof.
  destruct l as [|x l]; simpl; [discriminate|].
  intros Hn [= <-]. destruct (min_fold_spec l x Hn) as (? & ? & ?).
  split; auto.
Qed.

Lemma max_spec l m :
  no_nan l -> max_ l = Ok m -> In m l /\ Forall (fun y => le y m) l.
Proof.
  destruct l as [|x l]; simpl; [discriminate|].
  intros Hn [= <-]. destruct (max_fold_spec l x Hn) as (? & ? & ?).
  split; auto.
Qed.

Lemma getitem_nth l i :
  0 <= i < len l ->
  exists x, getitem l i = Ok x /\ nth_error l (Z.to_nat i) = Some x.
Proof.
  intros Hi. unfold getitem.
  destruct (i <? 0) eqn:E1; [lia|]. rewrite E1. cbn [orb].
  destruct (len l <=? i) eqn:E3; [lia|].
  destruct (nth_error l (Z.to_nat i)) as [x|] eqn:E4; eauto.
  apply nth_error_None in E4. unfold len in Hi. lia.
Qed.

Lemma getitem_In l i x : getitem l i = Ok x -> In x l.
Proof.
  unfold getitem.
  destruct (_ || _); [discriminate|].
  destruct (nth_error _ _) eqn:E; [|discriminate].
  intros [= <-]. eapply nth_error_In; eauto.
Qed.

Lemma sorted_nth_le (R : float -> float -> Prop) l i j a b :
  StronglySorted R l -> (i < j)%nat ->
  nth_error l i = Some a -> nth_error l j = Some b -> R a b.
Proof.
  intros Hs. revert i j. induction Hs as [|x l Hs IH Hx]; intros i j Hij Ha Hb.
  - destruct i; discriminate.
  - destruct j as [|j]; [lia|]. simpl in Hb.
    destruct i as [|i]; simpl in Ha.
    + injection Ha as <-. rewrite List.Forall_forall in Hx.
      apply Hx. eapply nth_error_In; eauto.
    + apply (IH i j); auto. lia.
Qed.

End Sorting.

(** ** The steps of [analyze_data] *)

Section AnalyzeFacts.

Variable py_sum : list float -> float.

Lemma bind_ok {A B} (m : result A) (k : A -> result B) (b : B) :
  bind m k = Ok b -> exists a, m = Ok a /\ k a = Ok b.
Proof. destruct m as [a|e]; simpl; [eauto|discriminate]. Qed.

Lemma values_nonempty (data : list DataPoint) :
  data <> [] -> map value data <> [].
Proof. destruct data; [congruence|discriminate]. Qed.

Lemma len_pos {A} (l : list A) : l <> [] -> 0 < len l.
Proof. unfold len. destruct l; [congruence|simpl; lia]. Qed.

Lemma analyze_data_ok data r :
  map value data <> [] ->
  analyze_data py_sum data = Ok r ->
  exists mean_ median_ variance std_dev_ lo hi,
    truediv (py_sum (map value data)) (of_int (len (map value data))) = Ok mean_ /\
    median_of (sorted (map value data)) (len (map value data)) = Ok median_ /\
    variance_of py_sum (map value data) mean_ (len (map value data)) = Ok variance /\
    pow_half variance = Ok std_dev_ /\
    min_ (map value data) = Ok lo /\
    max_ (map value data) = Ok hi /\
    r = {| mean := round2 mean_; median := round2 median_;
           std_dev := round2 std_dev_; min := lo; max := hi;
           count := len (map value data) |}.
Proof.
  unfold analyze_data, analyze_data_with. intros Hne H.
  destruct (map value data) as [|v vs] eqn:E; [congruence|].
  apply bind_ok in H as (m1 & H1 & H).
  apply bind_ok in H as (m2 & H2 & H).
  apply bind_ok in H as (m3 & H3 & H).
  apply bind_ok in H as (m4 & H4 & H).
  apply bind_ok in H as (m5 & H5 & H).
  apply bind_ok in H as (m6 & H6 & H).
  injection H as <-.
  exists m1, m2, m3, m4, m5, m6. repeat split; assumption.
Qed.

End AnalyzeFacts.

(** ** Rounding keeps signs and does not lose a number to zero *)

Section Rounding.

Lemma binary_round_aux_sign s m e l :
  match binary_round_aux prec emax s m e l with
  | S754_zero s' | S754_infinity s' | S754_finite s' _ _ => s' = s
  | S754_nan => True
  end.
Proof.
  unfold binary_round_aux.
  destruct (shr_fexp prec emax m e l) as [mrs' e'].
  destruct (shr_fexp prec emax _ e' loc_Exact) as [mrs'' e''].
  destruct (shr_m mrs''); auto.
  destruct (e'' <=? emax - prec); auto.
Qed.

Lemma digits2_lower p : 2 ^ (Zpos (digits2_pos p) - 1) <= Zpos p.
Proof.
  assert (digits2_pos p = Pos.size p) as -> by (induction p; simpl; congruence).
  pose proof (Pos.size_le p) as H.
  apply Pos2Z.pos_le_pos in H. rewrite Pos2Z.inj_pow in H.
  replace (Zpos (Pos.size p)) with (Z.succ (Zpos (Pos.size p) - 1)) in H by lia.
  rewrite Z.pow_succ_r in H by lia. lia.
Qed.

Lemma shr_1_m mrs : 0 <= shr_m mrs -> shr_m (shr_1 mrs) = shr_m mrs / 2.
Proof.
  destruct mrs as [m r s]; simpl. intros Hm.
  destruct m as [|[p|p|]|p]; simpl; try reflexivity; try lia.
  - apply Z.div_unique with 1; lia.
  - apply Z.div_unique with 0; lia.
Qed.

Lemma iter_shr_1_m p : forall mrs,
  0 <= shr_m mrs ->
  shr_m (SpecFloat.iter_pos shr_1 p mrs) = shr_m mrs / 2 ^ Zpos p.
Proof.
  induction p as [p IH|p IH|]; intros mrs Hm; cbn [SpecFloat.iter_pos].
  - assert (0 <= shr_m (shr_1 mrs)) as H1
      by (rewrite shr_1_m by auto; apply Z.div_pos; lia).
    assert (0 <= shr_m (SpecFloat.iter_pos shr_1 p (shr_1 mrs))) as H2
      by (rewrite IH by auto; apply Z.div_pos; lia).
    rewrite IH, IH, shr_1_m by auto.
    rewrite !Z.div_div by lia. f_equal.
    rewrite (Pos2Z.inj_xI p).
    replace (2 * Zpos p + 1) with (1 + Zpos p + Zpos p) by lia.
    rewrite !Z.pow_add_r by lia. lia.
  - assert (0 <= shr_m (SpecFloat.iter_pos shr_1 p mrs)) as H2
      by (rewrite IH by auto; apply Z.div_pos; lia).
    rewrite IH, IH by auto.
    rewrite !Z.div_div by lia. f_equal.
    rewrite (Pos2Z.inj_xO p).
    replace (2 * Zpos p) with (Zpos p + Zpos p) by lia.
    rewrite !Z.pow_add_r by lia. lia.
  - rewrite shr_1_m by auto. reflexivity.
Qed.

Lemma shr_record_of_loc_m m l : shr_m (shr_record_of_loc m l) = m.
Proof. destruct l as [|[]]; reflexivity. Qed.

Lemma shr_fexp_pos m e l :
  SpecFloat.emin prec emax <= e ->
  0 < shr_m (fst (shr_fexp prec emax (Zpos m) e l)) /\
  SpecFloat.emin prec emax <= snd (shr_fexp prec emax (Zpos m) e l).
Proof.
  intros He. unfold shr_fexp, shr.
  pose proof (digits2_lower m) as Hd.
  destruct (fexp prec emax (Zdigits2 (Zpos m) + e) - e) as [|n|n] eqn:En;
    cbn [fst snd]; rewrite ?shr_record_of_loc_m; try (split; lia).
  rewrite iter_shr_1_m by (rewrite shr_record_of_loc_m; lia).
  rewrite shr_record_of_loc_m.
  unfold fexp, SpecFloat.emin, prec, emax in *. cbn [Zdigits2] in En.
  split; [|lia].
  apply Z.div_str_pos. split; [lia|].
  apply Z.le_trans with (2 ^ (Zpos (digits2_pos m) - 1)); auto.
  apply Z.pow_le_mono_r; lia.
Qed.

Lemma round_nearest_even_ge m l : m <= round_nearest_even m l.
Proof. destruct l as [|[]]; simpl; try lia. destruct (Z.even m); lia. Qed.

(** Rounding a positive mantissa at an exponent of the format gives a finite
    number that is not zero, or an infinity. *)
Lemma binary_round_aux_pos s m e l :
  SpecFloat.emin prec emax <= e ->
  (exists m' e', binary_round_aux prec emax s (Zpos m) e l = S754_finite s m' e')
  \/ binary_round_aux prec emax s (Zpos m) e l = S754_infinity s.
Proof.
  intros He. unfold binary_round_aux.
  destruct (shr_fexp_pos m e l He) as [H1 H1e].
  destruct (shr_fexp prec emax (Zpos m) e l) as [mrs' e']. cbn [fst snd] in *.
  pose proof (round_nearest_even_ge (shr_m mrs') (loc_of_shr_record mrs')) as Hr.
  destruct (round_nearest_even (shr_m mrs') (loc_of_shr_record mrs'))
    as [|m2|m2]; try lia.
  destruct (shr_fexp_pos m2 e' loc_Exact H1e) as [H2 _].
  destruct (shr_fexp prec emax (Zpos m2) e' loc_Exact) as [mrs'' e''].
  cbn [fst snd] in *.
  destruct (shr_m mrs''); try lia.
  destruct (e'' <=? emax - prec); eauto.
Qed.

Lemma of_int_pos p :
  (exists m e, of_int (Zpos p) = S754_finite false m e)
  \/ of_int (Zpos p) = S754_infinity false.
Proof.
  unfold of_int, binary_normalize, binary_round, shl_align.
  destruct (fexp prec emax (Zpos (digits2_pos p) + 0) - 0) as [|d|d] eqn:E;
    apply binary_round_aux_pos; unfold SpecFloat.emin, fexp, prec, emax in *; lia.
Qed.

Lemma truediv_of_int x n :
  0 < n -> truediv x (of_int n) = Ok (div x (of_int n)).
Proof.
  intros Hn. destruct n as [|p|p]; try lia.
  unfold truediv.
  destruct (of_int_pos p) as [(m & e & ->)| ->]; reflexivity.
Qed.

End Rounding.

(** ** Signs: a variance is never negative *)

Section Signs.

Lemma binary_round_aux_nonneg m e l :
  nonneg (binary_round_aux prec emax false m e l).
Proof.
  pose proof (binary_round_aux_sign false m e l) as H.
  unfold nonneg. destruct (binary_round_aux prec emax false m e l); subst; reflexivity.
Qed.

Lemma add_nonneg x y : nonneg x -> nonneg y -> nonneg (add x y).
Proof.
  unfold nonneg, add, SFadd.
  destruct x as [sx|sx| |sx mx ex], y as [sy|sy| |sy my ey];
    try destruct sx; try destruct sy; simpl signbit;
    try discriminate; try reflexivity.
  intros _ _. cbn [cond_Zopp]. unfold binary_normalize, binary_round.
  match goal with
  | |- context [let '(_, _) := ?p in _] => destruct p
  end.
  apply binary_round_aux_nonneg.
Qed.

Lemma sum_left_nonneg l : Forall nonneg l -> nonneg (sum_left l).
Proof.
  unfold sum_left. assert (nonneg pos_zero) as H0 by reflexivity.
  revert H0. generalize pos_zero.
  induction l as [|x l IH]; intros a Ha Hl; simpl; auto.
  inversion Hl; subst. apply IH; auto using add_nonneg.
Qed.

Lemma pow_2_nonneg x y : pow_2 x = Ok y -> nonneg y.
Proof.
  destruct x as [s|s| |s m e]; cbn [pow_2]; try (intros [= <-]; reflexivity).
  pose proof (binary_round_aux_nonneg (Zpos (m * m)) (e + e) loc_Exact) as H.
  unfold mul, SFmul. cbn [xorb].
  destruct (binary_round_aux prec emax false (Zpos (m * m)) (e + e) loc_Exact);
    try discriminate; intros [= <-]; assumption.
Qed.

Lemma pow_2_raise x e : pow_2 x = Raise e -> e = OverflowError.
Proof.
  destruct x as [s|s| |s m ex]; cbn [pow_2]; try discriminate.
  destruct (mul (S754_finite false m ex) (S754_finite false m ex));
    intros H; try discriminate H. injection H as <-. reflexivity.
Qed.

Lemma div_of_int_nonneg x n : 0 < n -> nonneg x -> nonneg (div x (of_int n)).
Proof.
  intros Hn. destruct n as [|p|p]; try lia.
  unfold nonneg, div, SFdiv.
  destruct (of_int_pos p) as [(m & e & ->)| ->];
    destruct x as [sx|sx| |sx mx ex]; try destruct sx; simpl signbit;
    try discriminate; try reflexivity.
  intros _. cbn [xorb].
  destruct (SFdiv_core_binary prec emax (Zpos mx) ex (Zpos m) e) as [[mz ez] lz].
  apply binary_round_aux_nonneg.
Qed.

Lemma pow_half_nonneg x : nonneg x -> exists y, pow_half x = Ok y.
Proof.
  unfold nonneg. destruct x as [s|s| |[] m e]; simpl; try discriminate; eauto.
Qed.

Lemma mapM_ok_Forall {A B} (f : A -> result B) (P : B -> Prop) l ys :
  (forall x y, f x = Ok y -> P y) -> mapM f l = Ok ys -> Forall P ys.
Proof.
  intros Hf. revert ys. induction l as [|x l IH]; simpl; intros ys H.
  - injection H as <-. constructor.
  - apply bind_ok in H as (y & Hy & H).
    apply bind_ok in H as (ys' & Hys & H).
    injection H as <-. constructor; eauto.
Qed.

Lemma mapM_raise_Exists {A B} (f : A -> result B) l e :
  mapM f l = Raise e -> Exists (fun x => f x = Raise e) l.
Proof.
  induction l as [|x l IH]; simpl; [discriminate|].
  destruct (f x) as [y|e'] eqn:E; simpl.
  - destruct (mapM f l) as [ys|e'']; simpl; [discriminate|].
    intros [= ->]. apply Exists_cons_tl. auto.
  - intros [= ->]. apply Exists_cons_hd. assumption.
Qed.

Lemma mapM_ok_Forall_ok {A B} (f : A -> result B) l ys :
  mapM f l = Ok ys -> Forall (fun x => exists y, f x = Ok y) l.
Proof.
  revert ys. induction l as [|x l IH]; simpl; intros ys H; [constructor|].
  apply bind_ok in H as (y & Hy & H).
  apply bind_ok in H as (ys' & Hys & H).
  constructor; eauto.
Qed.

End Signs.

(** ** The median step *)

Section Median.

Lemma median_of_spec s n :
  n = len s -> 0 < n ->
  (n mod 2 = 0 ->
     exists a b,
       nth_error s (Z.to_nat (n / 2 - 1)) = Some a /\
       nth_error s (Z.to_nat (n / 2)) = Some b /\
       median_of s n = Ok (div (add a b) (of_int 2))) /\
  (n mod 2 <> 0 ->
     exists a,
       nth_error s (Z.to_nat (n / 2)) = Some a /\ median_of s n = Ok a).
Proof.
  intros Hn Hpos. unfold median_of. split; intros Hpar.
  - assert (2 <= n) by (destruct (Z.eq_dec n 1) as [->|]; [discriminate|lia]).
    assert (n = 2 * (n / 2)) by (pose proof (Z.div_mod n 2); lia).
    destruct (getitem_nth s (n / 2 - 1)) as (a & Ha & Na); [lia|].
    destruct (getitem_nth s (n / 2)) as (b & Hb & Nb); [lia|].
    exists a, b. rewrite Hpar, Ha, Hb. cbn [Z.eqb bind].
    rewrite truediv_of_int by lia. auto.
  - assert (0 <= n / 2 < n) by (split; [apply Z.div_pos|apply Z.div_lt]; lia).
    destruct (getitem_nth s (n / 2)) as (a & Ha & Na); [lia|].
    exists a. apply Z.eqb_neq in Hpar. rewrite Hpar. auto.
Qed.

End Median.

(** ** Rounding to two places *)

Section Round2.

Lemma round_half_even_spec p q :
  0 < q ->
  2 * Z.abs (p - round_half_even p q * q) <= q /\
  (2 * Z.abs (p - round_half_even p q * q) = q ->
   Z.even (round_half_even p q) = true).
Proof.
  intros Hq. unfold round_half_even.
  pose proof (Z.div_mod p q) as Hp. pose proof (Z.mod_pos_bound p q Hq) as Hr.
  set (k := p / q) in *. set (r := p mod q) in *.
  destruct (Z.compare_spec (2 * r) q) as [E|E|E].
  - destruct (Z.even k) eqn:Ek.
    + split; [lia|auto].
    + split; [lia|]. intros _. rewrite Z.even_add, Ek. reflexivity.
  - split; lia.
  - split; lia.
Qed.

Lemma round2_spec x : rounded_to_2_places x (round2 x).
Proof.
  destruct x as [s|s| |s m e]; simpl; auto.
  exists (hundredths m e). unfold hundredths. cbv zeta.
  destruct (0 <=? e) eqn:E.
  - apply Z.leb_le in E.
    rewrite Z.max_l, Z.max_r by lia. change (2 ^ 0) with 1.
    repeat split; lia.
  - apply Z.leb_gt in E.
    rewrite Z.max_r, Z.max_l by lia. change (2 ^ 0) with 1.
    rewrite Z.mul_1_r.
    assert (0 < 2 ^ (- e)) as Hq by (apply Z.pow_pos_nonneg; lia).
    destruct (round_half_even_spec (100 * Zpos m) (2 ^ (- e)) Hq).
    repeat split; auto.
Qed.

End Round2.

(** ** Reordering the input *)

Section Reordering.

Lemma sorted_perm_unique {A} (R : A -> A -> Prop) (l1 l2 : list A) :
  (forall a b, R a b -> R b a -> a = b) ->
  StronglySorted R l1 -> StronglySorted R l2 -> Permutation l1 l2 -> l1 = l2.
Proof.
  intros Hanti Hs1. revert l2.
  induction Hs1 as [|a l1 Hs1 IH Ha]; intros l2 Hs2 Hp.
  - apply Permutation_nil in Hp. auto.
  - destruct Hs2 as [|b l2 Hs2 Hb].
    + symmetry in Hp. apply Permutation_nil in Hp. discriminate.
    + assert (a = b) as ->.
      { assert (In a (b :: l2)) as Ia
          by (eapply Permutation_in; [exact Hp|left; reflexivity]).
        assert (In b (a :: l1)) as Ib
          by (eapply Permutation_in; [symmetry; exact Hp|left; reflexivity]).
        destruct Ia as [|Ia]; [congruence|].
        destruct Ib as [|Ib]; [congruence|].
        rewrite List.Forall_forall in Ha, Hb. auto. }
      f_equal. apply IH; auto. eapply Permutation_cons_inv; eauto.
Qed.

Lemma sorted_keys l :
  no_nan l -> StronglySorted le l -> StronglySorted lex_le (map key l).
Proof.
  intros Hn Hs. induction Hs as [|a l Hs IH Ha]; simpl; constructor.
  - inversion Hn; auto.
  - inversion Hn as [|? ? Hna Hnl]; subst.
    rewrite List.Forall_forall in *. intros k Hk.
    apply in_map_iff in Hk as (x & <- & Hx).
    apply leb_key; auto. apply Ha, Hx.
Qed.

Lemma sorted_keys_perm l1 l2 :
  Permutation l1 l2 -> no_nan l1 ->
  map key (sorted l1) = map key (sorted l2).
Proof.
  intros Hp Hn.
  assert (no_nan l2) as Hn2 by (eapply no_nan_perm; eauto).
  apply sorted_perm_unique with (R := lex_le).
  - apply lex_le_antisym.
  - apply sorted_keys; [|apply sorted_sorted; auto].
    eapply no_nan_perm; [symmetry; apply sorted_perm|]; auto.
  - apply sorted_keys; [|apply sorted_sorted; auto].
    eapply no_nan_perm; [symmetry; apply sorted_perm|]; auto.
  - apply Permutation_map.
    rewrite (sorted_perm l1), (sorted_perm l2). exact Hp.
Qed.

(** Whatever algorithm sorts the values, the ascending arrangement is the one
    of [sorted], up to the sign of zeros. *)
Lemma ascending_copy_unique l s :
  no_nan l -> Permutation s l -> StronglySorted le s ->
  Forall2 num_eq s (sorted l).
Proof.
  intros Hn Hp Hs.
  assert (no_nan s) as Hns by (eapply no_nan_perm; [symmetry|]; eauto).
  assert (no_nan (sorted l)) as Hnl
    by (eapply no_nan_perm; [symmetry; apply sorted_perm|]; auto).
  assert (map key s = map key (sorted l)) as Hk.
  { apply sorted_perm_unique with (R := lex_le).
    - apply lex_le_antisym.
    - apply sorted_keys; auto.
    - apply sorted_keys; auto using sorted_sorted.
    - apply Permutation_map. rewrite Hp, (sorted_perm l). reflexivity. }
  revert Hk Hns Hnl. generalize (sorted l). clear.
  induction s as [|x s IH]; intros [|y t] Hk Hns Hnt; try discriminate;
    constructor.
  - inversion Hns; inversion Hnt; subst. injection Hk as Hxy _.
    apply key_num_eq; auto.
  - inversion Hns; inversion Hnt; subst. injection Hk as _ Hk.
    apply IH; auto.
Qed.

Lemma nth_key_eq l1 l2 i a b :
  map key l1 = map key l2 ->
  nth_error l1 i = Some a -> nth_error l2 i = Some b -> key a = key b.
Proof.
  intros Hk Ha Hb.
  apply (map_nth_error key) in Ha. apply (map_nth_error key) in Hb.
  congruence.
Qed.

Lemma num_eq_refl x : num_eq x x.
Proof. left; reflexivity. Qed.

Lemma num_eq_add a a' b b' :
  num_eq a a' -> num_eq b b' -> num_eq (add a b) (add a' b').
Proof.
  intros [->|(s & t & -> & ->)] [->|(u & v & -> & ->)];
    try apply num_eq_refl.
  - destruct a' as [[]|[]| |[] ? ?], u, v; cbn;
      try apply num_eq_refl; right; eauto.
  - destruct b' as [[]|[]| |[] ? ?], s, t; cbn;
      try apply num_eq_refl; right; eauto.
  - destruct s, t, u, v; cbn; right; eauto.
Qed.

Lemma num_eq_div a a' c :
  num_eq a a' -> num_eq (div a c) (div a' c).
Proof.
  intros [->|(s & t & -> & ->)]; [apply num_eq_refl|].
  destruct c as [u|u| |u m e]; cbn; try apply num_eq_refl; right; eauto.
Qed.

Lemma num_eq_round2 a a' : num_eq a a' -> num_eq (round2 a) (round2 a').
Proof.
  intros [->|(s & t & -> & ->)]; [apply num_eq_refl|]. cbn. right; eauto.
Qed.

Lemma in_sorted_no_nan l x : no_nan l -> In x (sorted l) -> is_nan x = false.
Proof.
  intros Hn Hx. unfold no_nan in Hn. rewrite List.Forall_forall in Hn.
  apply Hn. eapply Permutation_in; [apply sorted_perm|]; auto.
Qed.

Lemma median_of_perm l1 l2 m1 m2 :
  Permutation l1 l2 -> no_nan l1 -> l1 <> [] ->
  median_of (sorted l1) (len l1) = Ok m1 ->
  median_of (sorted l2) (len l2) = Ok m2 ->
  num_eq m1 m2.
Proof.
  intros Hp Hn Hne H1 H2.
  assert (no_nan l2) as Hn2 by (eapply no_nan_perm; eauto).
  assert (len l2 = len l1) as Hlen
    by (unfold len; rewrite (Permutation_length Hp); reflexivity).
  rewrite Hlen in H2.
  pose proof (sorted_keys_perm l1 l2 Hp Hn) as Hk.
  assert (0 < len l1) as Hpos
    by (unfold len; destruct l1; [congruence|simpl; lia]).
  assert (len l1 = len (sorted l1)) as L1
    by (unfold len; rewrite sorted_length; reflexivity).
  assert (len l1 = len (sorted l2)) as L2
    by (unfold len; rewrite sorted_length, (Permutation_length Hp); reflexivity).
  destruct (median_of_spec (sorted l1) (len l1) L1 Hpos) as [E1 O1].
  destruct (median_of_spec (sorted l2) (len l1) L2 Hpos) as [E2 O2].
  destruct (Z.eq_dec (len l1 mod 2) 0) as [Hpar|Hpar].
  - destruct (E1 Hpar) as (a & b & Na & Nb & M1).
    destruct (E2 Hpar) as (a' & b' & Na' & Nb' & M2).
    assert (m1 = div (add a b) (of_int 2)) as -> by congruence.
    assert (m2 = div (add a' b') (of_int 2)) as -> by congruence.
    apply num_eq_div, num_eq_add; apply key_num_eq;
      eauto using nth_key_eq, in_sorted_no_nan, nth_error_In.
  - destruct (O1 Hpar) as (a & Na & M1).
    destruct (O2 Hpar) as (a' & Na' & M2).
    assert (m1 = a) as -> by congruence.
    assert (m2 = a') as -> by congruence.
    apply key_num_eq; eauto using nth_key_eq, in_sorted_no_nan, nth_error_In.
Qed.

Lemma min_perm l1 l2 m1 m2 :
  Permutation l1 l2 -> no_nan l1 ->
  min_ l1 = Ok m1 -> min_ l2 = Ok m2 -> num_eq m1 m2.
Proof.
  intros Hp Hn H1 H2.
  assert (no_nan l2) as Hn2 by (eapply no_nan_perm; eauto).
  destruct (min_spec l1 m1 Hn H1) as [I1 A1].
  destruct (min_spec l2 m2 Hn2 H2) as [I2 A2].
  pose proof Hn as Hn'. pose proof Hn2 as Hn2'.
  unfold no_nan in Hn', Hn2'. rewrite List.Forall_forall in *.
  apply le_antisym; auto.
  - apply A1. eapply Permutation_in; [symmetry; exact Hp|]; auto.
  - apply A2. eapply Permutation_in; [exact Hp|]; auto.
Qed.

Lemma max_perm l1 l2 m1 m2 :
  Permutation l1 l2 -> no_nan l1 ->
  max_ l1 = Ok m1 -> max_ l2 = Ok m2 -> num_eq m1 m2.
Proof.
  intros Hp Hn H1 H2.
  assert (no_nan l2) as Hn2 by (eapply no_nan_perm; eauto).
  destruct (max_spec l1 m1 Hn H1) as [I1 A1].
  destruct (max_spec l2 m2 Hn2 H2) as [I2 A2].
  pose proof Hn as Hn'. pose proof Hn2 as Hn2'.
  unfold no_nan in Hn', Hn2'. rewrite List.Forall_forall in *.
  apply le_antisym; auto.
  - apply A2. eapply Permutation_in; [exact Hp|]; auto.
  - apply A1. eapply Permutation_in; [symmetry; exact Hp|]; auto.
Qed.

End Reordering.

(** ** Rounding a sample to two places keeps it in range *)

Section SampleRange.

Lemma digits2_upper p : Zpos p < 2 ^ Zpos (digits2_pos p).
Proof.
  assert (digits2_pos p = Pos.size p) as -> by (induction p; simpl; congruence).
  pose proof (Pos.size_gt p) as H.
  apply Pos2Z.pos_lt_pos in H. rewrite Pos2Z.inj_pow in H. exact H.
Qed.

Lemma round_half_even_bounds p q a b :
  0 < q -> a * q <= p -> p <= b * q ->
  a <= round_half_even p q <= b.
Proof.
  intros Hq Ha Hb. unfold round_half_even.
  pose proof (Z.div_mod p q) as Hp. pose proof (Z.mod_pos_bound p q Hq) as Hr.
  set (k := p / q) in *. set (r := p mod q) in *.
  assert (a <= k) by nia.
  assert (k <= b) by nia.
  assert (k = b -> r = 0) by nia.
  destruct (Z.compare_spec (2 * r) q); [destruct (Z.even k)| |]; lia.
Qed.

Lemma hundredths_in_range_ok :
  forallb
    (fun k => leb (of_int 10) (of_hundredths false k)
              && leb (of_hundredths false k) (of_int 100))
    (map (fun i => 1000 + Z.of_nat i) (seq 0 (Z.to_nat 9001))) = true.
Proof. vm_compute. reflexivity. Qed.

Lemma of_hundredths_range k :
  1000 <= k <= 10000 ->
  le (of_int 10) (of_hundredths false k) /\
  le (of_hundredths false k) (of_int 100).
Proof.
  intros Hk. pose proof hundredths_in_range_ok as H.
  rewrite forallb_forall in H.
  specialize (H k). apply andb_true_iff. apply H.
  apply in_map_iff. exists (Z.to_nat (k - 1000)). split; [lia|].
  apply in_seq. lia.
Qed.

Lemma round2_range x :
  valid x = true -> le (of_int 10) x -> le x (of_int 100) ->
  le (of_int 10) (round2 x) /\ le (round2 x) (of_int 100).
Proof.
  intros Hv Hlo Hhi.
  assert (is_nan x = false) as Hx by (destruct x; [reflexivity..|discriminate|reflexivity]).
  apply leb_key in Hlo, Hhi; auto.
  change (of_int 10) with (S754_finite false 5629499534213120 (-49)) in Hlo.
  change (of_int 100) with (S754_finite false 7036874417766400 (-46)) in Hhi.
  destruct x as [s|s| |s m e]; try destruct s; cbn [key lex_le] in Hlo, Hhi;
    try lia.
  unfold valid, valid_binary, bounded, canonical_mantissa, fexp, SpecFloat.emin,
    prec, emax in Hv.
  apply andb_true_iff in Hv as [Hc _]. apply Z.eqb_eq in Hc.
  assert (Zpos (digits2_pos m) = 53) as Hd by lia.
  pose proof (digits2_lower m) as Hl. pose proof (digits2_upper m) as Hu.
  rewrite Hd in Hl, Hu.
  change (2 ^ (53 - 1)) with 4503599627370496 in Hl.
  change (2 ^ 53) with 9007199254740992 in Hu.
  cbn [round2]. apply of_hundredths_range.
  unfold hundredths.
  assert (e = -49 \/ e = -48 \/ e = -47 \/ e = -46) as He by lia.
  destruct He as [->|[->|[->| ->]]]; cbn [Z.leb Z.compare Z.opp];
    apply round_half_even_bounds; try reflexivity;
    match goal with
    | |- context [2 ^ ?n] => let v := eval vm_compute in (2 ^ n) in
                             change (2 ^ n) with v
    end; lia.
Qed.

End SampleRange.

(** ** The store *)

Section StoreFacts.

Import Store.

Lemma alloc_lookup o (h : gmap ref object) :
  (alloc o h).2 !! (alloc o h).1 = Some o.
Proof. unfold alloc; simpl. apply lookup_insert_eq. Qed.

Lemma alloc_subseteq o (h : gmap ref object) : h ⊆ (alloc o h).2.
Proof. unfold alloc; simpl. apply insert_subseteq, not_elem_of_dom, is_fresh. Qed.

Lemma floats_at_subseteq (h h' : gmap ref object) a l :
  h ⊆ h' -> h !! a = Some (Floats l) -> floats_at h' a = l.
Proof.
  intros Hs Ha. unfold floats_at.
  rewrite (lookup_weaken _ _ _ _ Ha Hs). reflexivity.
Qed.

(** Sorting in place, by contrast, replaces the object behind the reference. *)
Example sort_in_place_mutates :
  let h : gmap ref object := {[ 1%positive := Floats [of_int 2; of_int 1] ]} in
  floats_at h 1%positive = [of_int 2; of_int 1] /\
  floats_at (sort_in_place 1%positive h) 1%positive = [of_int 1; of_int 2].
Proof. split; vm_compute; reflexivity. Qed.

End StoreFacts.

(** ** More on [min] and [max] *)

Section MinMaxMembership.

Lemma fold_pick_In (f : float -> float -> float) l x :
  (forall m y, f m y = m \/ f m y = y) -> In (fold_left f l x) (x :: l).
Proof.
  intros Hf. revert x. induction l as [|y l IH]; intros x; simpl; auto.
  destruct (IH (f x y)) as [H|H].
  - rewrite <- H.
    destruct (Hf x y) as [E|E]; rewrite E; [left|right; left]; reflexivity.
  - right; right; exact H.
Qed.

Lemma min_In l m : min_ l = Ok m -> In m l.
Proof.
  destruct l as [|x l]; simpl; [discriminate|]. intros [= <-].
  apply (fold_pick_In (fun m y => if ltb y m then y else m)).
  intros a b. destruct (ltb b a); auto.
Qed.

Lemma max_In l m : max_ l = Ok m -> In m l.
Proof.
  destruct l as [|x l]; simpl; [discriminate|]. intros [= <-].
  apply (fold_pick_In (fun m y => if ltb m y then y else m)).
  intros a b. destruct (ltb a b); auto.
Qed.

End MinMaxMembership.

(** ** The handler after its steps that cannot fail *)

Section Reduction.

Variable py_sum : list float -> float.

(** On a non-empty input the mean and the median are always computed; what
    remains is the variance, its root, and the two extremes. *)
Lemma analyze_data_reduce (data : list DataPoint) :
  data <> [] ->
  let values := map value data in
  let mean_ := div (py_sum values) (of_int (len values)) in
  exists md,
    median_of (sorted values) (len values) = Ok md /\
    analyze_data py_sum data =
      let* variance := variance_of py_sum values mean_ (len values) in
      let* sd := pow_half variance in
      let* lo := min_ values in
      let* hi := max_ values in
      Ok {| mean := round2 mean_; median := round2 md;
            std_dev := round2 sd; min := lo; max := hi;
            count := len values |}.
Proof.
  intros Hne values mean_.
  pose proof (values_nonempty data Hne) as Hv. fold values in Hv.
  pose proof (len_pos _ Hv) as Hpos.
  assert (len values = len (sorted values)) as Hs
    by (unfold len; rewrite sorted_length; reflexivity).
  assert (exists m, median_of (sorted values) (len values) = Ok m) as (md & Hmd).
  { destruct (median_of_spec _ _ Hs Hpos) as [E O].
    destruct (Z.eq_dec (len values mod 2) 0) as [Hp|Hp].
    - destruct (E Hp) as (a & b & _ & _ & H). eauto.
    - destruct (O Hp) as (a & _ & H). eauto. }
  exists md. split; [exact Hmd|].
  unfold analyze_data, analyze_data_with. fold values.
  destruct values as [|v vs] eqn:Ev; [congruence|]. cbv zeta.
  rewrite truediv_of_int by exact Hpos. cbn [bind]. fold mean_.
  rewrite Hmd. reflexivity.
Qed.

(** With a [sum] that keeps the sign bit clear, the variance step is the
    only one that can raise, and it raises [OverflowError]. *)
Lemma analyze_data_raise (data : list DataPoint) (e : exception) :
  (forall l, Forall nonneg l -> nonneg (py_sum l)) ->
  data <> [] ->
  analyze_data py_sum data = Raise e ->
  e = OverflowError /\
  Exists
    (fun x =>
       pow_2 (sub x (div (py_sum (map value data))
                         (of_int (len (map value data)))))
       = Raise OverflowError)
    (map value data).
Proof.
  intros Hsum Hne.
  destruct (analyze_data_reduce data Hne) as (md & _ & ->).
  pose proof (len_pos _ (values_nonempty data Hne)) as Hpos.
  unfold variance_of, variance_with.
  destruct (mapM _ (map value data)) as [squares|e'] eqn:Esq; cbn [bind].
  - rewrite truediv_of_int by exact Hpos. cbn [bind].
    assert (nonneg (div (py_sum squares) (of_int (len (map value data)))))
      as Hvar.
    { apply div_of_int_nonneg; [exact Hpos|]. apply Hsum.
      eapply mapM_ok_Forall; [|exact Esq].
      intros x y. apply pow_2_nonneg. }
    destruct (pow_half_nonneg _ Hvar) as (sd & ->). cbn [bind].
    destruct (map value data) as [|v vs]; [unfold len in Hpos; simpl in Hpos; lia|].
    cbn [min_ max_ bind]. discriminate.
  - intros [= ->].
    pose proof (mapM_raise_Exists _ _ _ Esq) as Hex.
    assert (e = OverflowError) as ->.
    { rewrite List.Exists_exists in Hex. destruct Hex as (x & _ & Hx).
      eapply pow_2_raise; eauto. }
    split; [reflexivity|exact Hex].
Qed.

End Reduction.

(** * The claims *)

(** ** The handler with any power operator *)

Section HandlerCases.

Variable py_sum : list float -> float.
Variable py_pow_2 : float -> result float.
Variable py_pow_half : float -> result float.

(** On a non-empty input the mean, the median and the two extremes are always
    computed; only the variance and its root can raise. *)
Lemma analyze_data_with_reduce (data : list DataPoint) :
  data <> [] ->
  let values := map value data in
  let n := len values in
  let mean_ := div (py_sum values) (of_int n) in
  exists md lo hi,
    median_of (sorted values) n = Ok md /\
    min_ values = Ok lo /\ max_ values = Ok hi /\
    analyze_data_with py_sum py_pow_2 py_pow_half data =
      let* variance := variance_with py_sum py_pow_2 values mean_ n in
      let* sd := py_pow_half variance in
      Ok {| mean := round2 mean_; median := round2 md;
            std_dev := round2 sd; min := lo; max := hi; count := n |}.
Proof.
  intros Hne values n mean_.
  pose proof (values_nonempty data Hne) as Hv. fold values in Hv.
  pose proof (len_pos _ Hv) as Hpos. fold n in Hpos.
  assert (n = len (sorted values)) as Hs
    by (subst n; unfold len; rewrite sorted_length; reflexivity).
  assert (exists m, median_of (sorted values) n = Ok m) as (md & Hmd).
  { destruct (median_of_spec _ _ Hs Hpos) as [E O].
    destruct (Z.eq_dec (n mod 2) 0) as [Hp|Hp].
    - destruct (E Hp) as (a & b & _ & _ & H). eauto.
    - destruct (O Hp) as (a & _ & H). eauto. }
  unfold analyze_data_with. fold values.
  destruct values as [|v vs] eqn:Ev; [congruence|]. cbv zeta. fold n.
  eexists md, _, _. split; [exact Hmd|].
  split; [cbn [min_]; reflexivity|]. split; [cbn [max_]; reflexivity|].
  rewrite truediv_of_int by exact Hpos. cbn [bind]. fold mean_.
  rewrite Hmd. cbn [bind min_ max_].
  destruct (variance_with py_sum py_pow_2 (v :: vs) mean_ n) as [variance|e];
    cbn [bind]; [|reflexivity].
  destruct (py_pow_half variance) as [sd|e]; reflexivity.
Qed.

End HandlerCases.

Section Claims.

Variable py_sum : list float -> float.

(** The interpreter's [x ** 2] and [x ** 0.5], for the claims on the numbers
    computed with them. *)
Variable py_pow_2 : float -> result float.
Variable py_pow_half : float -> result float.

(** C1 (as amended).  On a non-empty input of finite values, [min] and [max]
    of the returned record are input values that enclose every input value,
    so [min <= max].  The returned median is [round(m, 2)] for an input value
    [m] with [min <= m <= max] when the count is odd, and
    [round((a + b) / 2, 2)] for input values [min <= a <= b <= max] when it
    is even.  The rounded mean and median themselves are not bounded by
    [min] and [max]. *)
Theorem min_max_enclose_input (data : list DataPoint) (r : AnalysisResult) :
  data <> [] ->
  all_finite (map value data) ->
  analyze_data py_sum data = Ok r ->
  In (min r) (map value data) /\
  In (max r) (map value data) /\
  Forall (fun v => le (min r) v /\ le v (max r)) (map value data) /\
  le (min r) (max r) /\
  (len data mod 2 = 1 ->
   exists m, In m (map value data) /\ le (min r) m /\ le m (max r) /\
             median r = round2 m) /\
  (len data mod 2 = 0 ->
   exists a b, In a (map value data) /\ In b (map value data) /\
               le (min r) a /\ le a b /\ le b (max r) /\
               median r = round2 (div (add a b) (of_int 2))).
Proof.
  intros Hne Hfin Hr.
  pose proof (values_nonempty data Hne) as Hv.
  pose proof (all_finite_no_nan _ Hfin) as Hn.
  destruct (analyze_data_ok py_sum data r Hv Hr)
    as (mean_ & median_ & variance & sd & lo & hi & _ & Hmed & _ & _ & Hlo & Hhi & ->).
  cbn [min max median].
  destruct (min_spec _ _ Hn Hlo) as [Ilo Alo].
  destruct (max_spec _ _ Hn Hhi) as [Ihi Ahi].
  assert (Forall (fun v => le lo v /\ le v hi) (map value data)) as Hall.
  { rewrite List.Forall_forall in *. auto. }
  pose proof Hn as Hn'. unfold no_nan in Hn'. rewrite List.Forall_forall in Hn'.
  split; [exact Ilo|]. split; [exact Ihi|]. split; [exact Hall|]. split.
  - rewrite List.Forall_forall in Hall. destruct (Hall lo Ilo) as [_ H]. exact H.
  - assert (len (map value data) = len data) as Hlen
      by (unfold len; rewrite length_map; reflexivity).
    pose proof (len_pos _ Hv) as Hpos.
    assert (len (map value data) = len (sorted (map value data))) as Hs
      by (unfold len; rewrite sorted_length; reflexivity).
    assert (forall i a, nth_error (sorted (map value data)) i = Some a ->
                        In a (map value data)) as Hin.
    { intros i a Na. eapply Permutation_in; [apply sorted_perm|].
      eapply nth_error_In; eauto. }
    rewrite List.Forall_forall in Hall.
    destruct (median_of_spec _ _ Hs Hpos) as [Hme Hmo].
    split.
    + intros Hodd.
      destruct Hmo as (a & Na & Ma); [rewrite Hlen, Hodd; discriminate|].
      assert (median_ = a) as -> by congruence.
      destruct (Hall a (Hin _ _ Na)). exists a. eauto.
    + intros Heven. rewrite Hlen in Hme.
      destruct (Hme Heven) as (a & b & Na & Nb & Mab).
      rewrite <- Hlen in Mab.
      assert (median_ = div (add a b) (of_int 2)) as -> by congruence.
      destruct (Hall a (Hin _ _ Na)). destruct (Hall b (Hin _ _ Nb)).
      exists a, b. repeat split; eauto.
      apply (sorted_nth_le le (sorted (map value data))
               (Z.to_nat (len data / 2 - 1)) (Z.to_nat (len data / 2)));
        auto using sorted_sorted.
      assert (2 <= len data)
        by (destruct (Z.eq_dec (len data) 1) as [E|E];
            [rewrite E in Heven; discriminate|lia]).
      assert (len data = 2 * (len data / 2))
        by (pose proof (Z.div_mod (len data) 2); lia).
      lia.
Qed.

(** C2 (as amended).  [analyze] of the empty input returns the all-zero
    record without raising.  On a non-empty input it returns a record unless
    the square of some deviation [x - mean] is too large for a float, and then
    it raises [OverflowError]; it fails in no other way.  [sum] is only
    required to give a result with a clear sign bit on numbers with a clear
    sign bit. *)
Theorem analyze_fails_only_on_overflow (data : list DataPoint) :
  (forall l, Forall nonneg l -> nonneg (py_sum l)) ->
  analyze_data py_sum [] =
    Ok {| mean := pos_zero; median := pos_zero; std_dev := pos_zero;
          min := pos_zero; max := pos_zero; count := 0 |} /\
  (data <> [] ->
   let values := map value data in
   let mean_ := div (py_sum values) (of_int (len values)) in
   let overflows x := pow_2 (sub x mean_) = Raise OverflowError in
   (Exists overflows values ->
    analyze_data py_sum data = Raise OverflowError) /\
   (~ Exists overflows values ->
    exists r, analyze_data py_sum data = Ok r)).
Proof.
  intros Hsum. split; [reflexivity|].
  intros Hne values mean_ overflows.
  destruct (analyze_data_reduce py_sum data Hne) as (md & _ & ->).
  fold values mean_.
  pose proof (values_nonempty data Hne) as Hv. fold values in Hv.
  pose proof (len_pos _ Hv) as Hpos.
  unfold variance_of, variance_with.
  destruct (mapM (fun x => pow_2 (sub x mean_)) values) as [squares|e] eqn:Esq;
    cbn [bind].
  - split.
    + intros Hex. apply mapM_ok_Forall_ok in Esq.
      rewrite List.Exists_exists in Hex. destruct Hex as (x & Hx & Hov).
      rewrite List.Forall_forall in Esq. destruct (Esq x Hx) as (y & Hy).
      unfold overflows in Hov. congruence.
    + intros _. rewrite truediv_of_int by exact Hpos. cbn [bind].
      assert (nonneg (div (py_sum squares) (of_int (len values)))) as Hvar.
      { apply div_of_int_nonneg; [exact Hpos|]. apply Hsum.
        eapply mapM_ok_Forall; [|exact Esq].
        intros x y. apply pow_2_nonneg. }
      destruct (pow_half_nonneg _ Hvar) as (sd & ->). cbn [bind].
      destruct values as [|v vs]; [congruence|].
      cbn [min_ max_ bind]. eauto.
  - pose proof (mapM_raise_Exists _ _ _ Esq) as Hex.
    assert (e = OverflowError) as ->.
    { rewrite List.Exists_exists in Hex. destruct Hex as (x & _ & Hx).
      eapply pow_2_raise; eauto. }
    split; [reflexivity|]. intros Hno. contradiction.
Qed.

(** C3.  On a non-empty input of finite values the median is computed from
    the ascending sorted copy of the values: the average of the elements at
    indices [n/2 - 1] and [n/2] when [n] is even, the element at index [n/2]
    when [n] is odd.  The handler returns that number rounded as the median
    of its record; it returns no record only when a squared deviation has
    overflowed.  [sum] is only required to give a result with a clear sign
    bit on numbers with a clear sign bit. *)
Theorem median_from_sorted_copy (data : list DataPoint) :
  (forall l, Forall nonneg l -> nonneg (py_sum l)) ->
  data <> [] ->
  all_finite (map value data) ->
  let values := map value data in
  let n := len values in
  let s := sorted values in
  Permutation s values /\
  StronglySorted le s /\
  exists m,
    median_of s n = Ok m /\
    (n mod 2 = 0 ->
     exists a b,
       nth_error s (Z.to_nat (n / 2 - 1)) = Some a /\
       nth_error s (Z.to_nat (n / 2)) = Some b /\
       m = div (add a b) (of_int 2)) /\
    (n mod 2 = 1 -> nth_error s (Z.to_nat (n / 2)) = Some m) /\
    match analyze_data py_sum data with
    | Ok r => median r = round2 m
    | Raise e => e = OverflowError
    end.
Proof.
  intros Hsum Hne Hfin values n s.
  pose proof (values_nonempty data Hne) as Hv. fold values in Hv.
  pose proof (all_finite_no_nan _ Hfin) as Hn.
  split; [apply sorted_perm|]. split; [apply sorted_sorted; exact Hn|].
  pose proof (len_pos _ Hv) as Hpos. fold n in Hpos.
  assert (n = len s) as Hs
    by (subst n s; unfold len; rewrite sorted_length; reflexivity).
  destruct (median_of_spec s n Hs Hpos) as [E O].
  assert (exists m, median_of s n = Ok m) as (m & Hm).
  { destruct (Z.eq_dec (n mod 2) 0) as [Hp|Hp].
    - destruct (E Hp) as (a & b & _ & _ & H). eauto.
    - destruct (O Hp) as (a & _ & H). eauto. }
  exists m. split; [exact Hm|]. split; [|split].
  - intros Hp. destruct (E Hp) as (a & b & Na & Nb & H).
    exists a, b. repeat split; auto. congruence.
  - intros Hp. destruct O as (a & Na & H); [rewrite Hp; discriminate|].
    congruence.
  - destruct (analyze_data py_sum data) as [r|e] eqn:Hr;
      [|eapply analyze_data_raise; eauto].
    destruct (analyze_data_ok py_sum data r Hv Hr)
      as (mean_ & median_ & variance & sd & lo & hi & _ & Hmed & _ & _ & _ & _ & ->).
    cbn [median]. fold values n s in Hmed. congruence.
Qed.


(** C5.  On a non-empty input of finite values the returned [mean], [median]
    and [std_dev] are the computed numbers rounded to two decimal places,
    ties to even; [min] and [max] are input values, returned as they are;
    [count] is the length of the input.  No record is returned exactly when
    the deviation computation raises.  This holds whatever [sum], [** 2] and
    [** 0.5] compute. *)
Theorem result_rounding_and_extremes (data : list DataPoint) :
  data <> [] ->
  all_finite (map value data) ->
  let values := map value data in
  let n := len values in
  let mean_ := div (py_sum values) (of_int n) in
  let deviation :=
    let* variance := variance_with py_sum py_pow_2 values mean_ n in
    py_pow_half variance in
  match analyze_data_with py_sum py_pow_2 py_pow_half data with
  | Ok r =>
      (exists median_ std_dev_,
         median_of (sorted values) n = Ok median_ /\
         deviation = Ok std_dev_ /\
         rounded_to_2_places mean_ (mean r) /\
         rounded_to_2_places median_ (median r) /\
         rounded_to_2_places std_dev_ (std_dev r)) /\
      min_ values = Ok (min r) /\ In (min r) values /\
      max_ values = Ok (max r) /\ In (max r) values /\
      count r = Z.of_nat (length data)
  | Raise e => deviation = Raise e
  end.
Proof.
  intros Hne _ values n mean_ deviation.
  destruct (analyze_data_with_reduce py_sum py_pow_2 py_pow_half data Hne)
    as (md & lo & hi & Hmd & Hlo & Hhi & ->).
  fold values n mean_ in Hmd, Hlo, Hhi |- *. subst deviation.
  destruct (variance_with py_sum py_pow_2 values mean_ n) as [variance|e];
    cbn [bind]; [|reflexivity].
  destruct (py_pow_half variance) as [sd|e]; cbn [bind]; [|reflexivity].
  cbn [mean median std_dev min max count]. split.
  - exists md, sd. repeat split; auto using round2_spec.
  - split; [exact Hlo|]. split; [eapply min_In; exact Hlo|].
    split; [exact Hhi|]. split; [eapply max_In; exact Hhi|].
    subst n values. unfold len. rewrite length_map. reflexivity.
Qed.

(** C6 (as amended).  Two inputs of finite values that are permutations of
    each other, when [analyze] returns on both, give the same [count] and, up
    to the sign of a zero, the same [min], [max] and [median].  The [mean] and
    [std_dev] depend on the order in which [sum] meets the values. *)
Theorem reordering_keeps_count_extremes_median
  (data1 data2 : list DataPoint) (r1 r2 : AnalysisResult) :
  Permutation data1 data2 ->
  all_finite (map value data1) ->
  analyze_data py_sum data1 = Ok r1 ->
  analyze_data py_sum data2 = Ok r2 ->
  count r1 = count r2 /\
  num_eq (min r1) (min r2) /\
  num_eq (max r1) (max r2) /\
  num_eq (median r1) (median r2).
Proof.
  intros Hp Hfin Hr1 Hr2.
  pose proof (Permutation_map value Hp) as Hpv.
  pose proof (all_finite_no_nan _ Hfin) as Hn.
  destruct data1 as [|p1 data1].
  { apply Permutation_nil in Hp. subst data2.
    cbn in Hr1, Hr2. injection Hr1 as <-. injection Hr2 as <-.
    cbn. auto using num_eq_refl. }
  assert (map value (p1 :: data1) <> []) as Hv1 by discriminate.
  assert (map value data2 <> []) as Hv2.
  { intros E. rewrite E in Hpv. apply Permutation_sym, Permutation_nil in Hpv.
    discriminate. }
  destruct (analyze_data_ok py_sum _ r1 Hv1 Hr1)
    as (mean1 & med1 & var1 & sd1 & lo1 & hi1 & _ & Hm1 & _ & _ & Hlo1 & Hhi1 & ->).
  destruct (analyze_data_ok py_sum _ r2 Hv2 Hr2)
    as (mean2 & med2 & var2 & sd2 & lo2 & hi2 & _ & Hm2 & _ & _ & Hlo2 & Hhi2 & ->).
  cbn [count min max median].
  split; [unfold len; rewrite (Permutation_length Hpv); reflexivity|].
  split; [eapply min_perm; eauto|].
  split; [eapply max_perm; eauto|].
  apply num_eq_round2. eapply median_of_perm; eauto.
Qed.

(** C9.  [analyze] does not change the list it is given: with [data] bound
    to a list object of the store, the call only adds objects, the object
    behind [data] is the same afterwards, and the result is that of the
    handler on the list's contents. *)
Theorem analyze_leaves_input_list
  (data : Store.ref) (h : gmap Store.ref Store.object) (points : list DataPoint) :
  h !! data = Some (Store.Points points) ->
  let out := Store.analyze_data_store py_sum data h in
  out.2 !! data = Some (Store.Points points) /\
  h ⊆ out.2 /\
  out.1 = analyze_data py_sum points.
Proof.
  intros Hd out. subst out. unfold Store.analyze_data_store.
  assert (Store.points_at h data = points) as ->
    by (unfold Store.points_at; rewrite Hd; reflexivity).
  pose proof (alloc_subseteq (Store.Floats (map value points)) h) as S1.
  pose proof (alloc_lookup (Store.Floats (map value points)) h) as L1.
  destruct (Store.alloc (Store.Floats (map value points)) h) as [values h1].
  cbn [fst snd] in *.
  assert (Store.floats_at h1 values = map value points) as F1
    by (unfold Store.floats_at; rewrite L1; reflexivity).
  rewrite F1. unfold analyze_data, analyze_data_with.
  destruct (map value points) as [|v vs] eqn:Ev.
  - cbn [fst snd]. split; [|split]; auto.
    eapply lookup_weaken; eauto.
  - unfold Store.sorted_new. rewrite F1.
    pose proof (alloc_subseteq (Store.Floats (sorted (v :: vs))) h1) as S2.
    pose proof (alloc_lookup (Store.Floats (sorted (v :: vs))) h1) as L2.
    destruct (Store.alloc (Store.Floats (sorted (v :: vs))) h1) as [sorted_values h2].
    cbn [fst snd] in *.
    assert (Store.floats_at h2 values = v :: vs) as F2
      by (eapply floats_at_subseteq; eauto).
    assert (Store.floats_at h2 sorted_values = sorted (v :: vs)) as F3
      by (unfold Store.floats_at; rewrite L2; reflexivity).
    rewrite F2, F3. split; [|split].
    + eapply lookup_weaken; [|exact S2]. eapply lookup_weaken; eauto.
    + etransitivity; eauto.
    + reflexivity.
Qed.

(** C10.  Two inputs with the same sequence of values give the same result,
    whatever their timestamps. *)
Theorem analyze_ignores_timestamps (data1 data2 : list DataPoint) :
  map value data1 = map value data2 ->
  analyze_data py_sum data1 = analyze_data py_sum data2.
Proof. intros H. unfold analyze_data, analyze_data_with. rewrite H. reflexivity. Qed.

End Claims.

Section GenerateClaims.

Variable rng : Type.
Variable uniform : Z -> Z -> rng -> float * rng.
Variable isoformat : Z -> string.

Lemma sample_points_spec (P : DataPoint -> Prop) base_time indices :
  (forall g i, P {| value := round2 (uniform 10 100 g).1;
                    timestamp := isoformat (base_time - 1000000 * i) |}) ->
  forall g,
    length (sample_points rng uniform isoformat base_time indices g).1
      = length indices /\
    Forall P (sample_points rng uniform isoformat base_time indices g).1.
Proof.
  intros HP. induction indices as [|i rest IH]; intros g; simpl.
  - split; [reflexivity|constructor].
  - pose proof (HP g i) as Hp.
    destruct (uniform 10 100 g) as [u g1].
    destruct (IH g1) as [Hlen Hall].
    destruct (sample_points rng uniform isoformat base_time rest g1) as [ps g2].
    simpl in *. split; [congruence|]. constructor; assumption.
Qed.

(** C7.  [generate(count)] returns 1000 points when [count > 1000], none when
    [count <= 0] and [count] points in between, and every value lies in
    [[10, 100]].  [random.uniform(10, 100)] is taken by its contract: a
    binary64 [N] with [10 <= N <= 100]. *)
Theorem generate_count_and_range (count now : Z) (g : rng) :
  (forall g', valid (uniform 10 100 g').1 = true /\
              le (of_int 10) (uniform 10 100 g').1 /\
              le (uniform 10 100 g').1 (of_int 100)) ->
  let response := (generate_sample_data rng uniform isoformat count now g).1 in
  (1000 < count -> len (data response) = 1000) /\
  (count <= 0 -> data response = []) /\
  (0 <= count <= 1000 -> len (data response) = count) /\
  data_count response = len (data response) /\
  Forall (fun p => le (of_int 10) (value p) /\ le (value p) (of_int 100))
         (data response).
Proof.
  intros Hu response. subst response. unfold generate_sample_data.
  set (c := if 1000 <? count then 1000 else count).
  destruct (sample_points_spec
              (fun p => le (of_int 10) (value p) /\ le (value p) (of_int 100))
              now (range c)) with (g := g) as [Hlen Hall].
  { intros g' i. cbn [value]. destruct (Hu g') as (Hv & Hlo & Hhi).
    apply round2_range; assumption. }
  destruct (sample_points rng uniform isoformat now (range c) g) as [ps g'].
  cbn [fst snd data data_count] in *.
  assert (len ps = Z.max 0 c) as Hps.
  { unfold len. rewrite Hlen. unfold range.
    rewrite length_map, length_seq. lia. }
  subst c. repeat split; auto.
  - intros Hc. rewrite Hps. destruct (1000 <? count) eqn:E; lia.
  - intros Hc. destruct (1000 <? count) eqn:E; [lia|].
    destruct ps; [reflexivity|]. unfold len in Hps. simpl in Hps. lia.
  - intros Hc. rewrite Hps. destruct (1000 <? count) eqn:E; lia.
Qed.

End GenerateClaims.

(** C8.  [analyze([1.0, 2.0, 3.0, 4.0])] is
    [{mean: 2.5, median: 2.5, std_dev: 1.12, min: 1.0, max: 4.0, count: 4}]
    under both implementations of [sum], whatever the timestamps. *)
Theorem analyze_one_to_four (t1 t2 t3 t4 : string) :
  Forall
    (fun py_sum =>
       analyze_data py_sum
         [ {| value := lit 1.0; timestamp := t1 |};
           {| value := lit 2.0; timestamp := t2 |};
           {| value := lit 3.0; timestamp := t3 |};
           {| value := lit 4.0; timestamp := t4 |} ]
       = Ok {| mean := lit 2.5; median := lit 2.5; std_dev := lit 1.12;
               min := lit 1.0; max := lit 4.0; count := 4 |})
    builtin_sums.
Proof. repeat constructor; vm_compute; reflexivity. Qed.

(** The other two worked examples of the specification: a single value, and
    [[10.0, 20.0, 30.0]], whose standard deviation 8.1649... rounds to 8.16. *)
Example analyze_single_value :
  Forall
    (fun py_sum =>
       analyze_data py_sum (points_of [lit 5.0])
       = Ok {| mean := lit 5.0; median := lit 5.0; std_dev := lit 0.0;
               min := lit 5.0; max := lit 5.0; count := 1 |})
    builtin_sums.
Proof. repeat constructor; vm_compute; reflexivity. Qed.

Example analyze_ten_twenty_thirty :
  Forall
    (fun py_sum =>
       analyze_data py_sum (points_of [lit 10.0; lit 20.0; lit 30.0])
       = Ok {| mean := lit 20.0; median := lit 20.0; std_dev := lit 8.16;
               min := lit 10.0; max := lit 30.0; count := 3 |})
    builtin_sums.
Proof. repeat constructor; vm_compute; reflexivity. Qed.

(** ** Counterexamples to the claims as first stated *)

Lemma cancelling_permutation :
  Permutation (points_of cancelling_input) (points_of cancelling_reordered).
Proof.
  unfold cancelling_input, cancelling_reordered, points_of. cbn [map].
  apply perm_skip.
  match goal with
  | |- Permutation (?b :: ?c :: ?d :: ?e :: nil) _ =>
      apply (Permutation_cons_app [e] [d; c]);
      apply (Permutation_cons_app [e; d] []);
      apply perm_swap
  end.
Qed.

(** Before any rounding to two places, the float mean of [[0.1, 0.1, 0.1]] is
    [0.10000000000000002], above every input value. *)
Example unrounded_mean_above_max :
  Forall
    (fun py_sum =>
       truediv (py_sum tenths_input) (of_int (len tenths_input))
       = Ok (lit 0.10000000000000002))
    builtin_sums /\
  ltb (lit 0.1) (lit 0.10000000000000002) = true.
Proof. split; [repeat constructor|]; vm_compute; reflexivity. Qed.

(** The sum of the two middle values can overflow: [[1.7e308, 1.7e308]] has
    the median [inf], above [max]. *)
Example median_of_large_pair :
  Forall
    (fun py_sum =>
       exists r,
         analyze_data py_sum (points_of large_pair) = Ok r /\
         median r = S754_infinity false /\
         ltb (max r) (median r) = true)
    builtin_sums.
Proof.
  repeat constructor; eexists; (split; [vm_compute; reflexivity|]);
    split; vm_compute; reflexivity.
Qed.


(** C1 as stated fails: on [[0.00390625]] the rounded mean and median are
    [0.0], below [min = 0.00390625]. *)
Lemma rounded_mean_leaves_min_max :
  all_finite tiny_input /\
  Forall
    (fun py_sum =>
       exists r,
         analyze_data py_sum (points_of tiny_input) = Ok r /\
         leb (min r) (mean r) = false /\
         leb (min r) (median r) = false)
    builtin_sums.
Proof.
  split; [repeat constructor|].
  repeat constructor; eexists; (split; [vm_compute; reflexivity|]);
    split; vm_compute; reflexivity.
Qed.

(** C2 as stated fails: [[2.0 ** 1000, 0.0]] holds finite values and
    [analyze] raises [OverflowError] on it. *)
Lemma analyze_overflow_on_finite_input :
  all_finite huge_input /\
  Forall
    (fun py_sum =>
       analyze_data py_sum (points_of huge_input) = Raise OverflowError)
    builtin_sums.
Proof.
  split; [repeat constructor|].
  repeat constructor; vm_compute; reflexivity.
Qed.

(** C6 as stated fails: the two orders of the same five finite values give
    the means [0.0] and [0.2]. *)
Lemma reordering_changes_mean :
  Permutation (points_of cancelling_input) (points_of cancelling_reordered) /\
  all_finite cancelling_input /\
  Forall
    (fun py_sum =>
       exists r1 r2,
         analyze_data py_sum (points_of cancelling_input) = Ok r1 /\
         analyze_data py_sum (points_of cancelling_reordered) = Ok r2 /\
         mean r1 = lit 0.0 /\ mean r2 = lit 0.2 /\
         eqb (mean r1) (mean r2) = false)
    builtin_sums.
Proof.
  split; [|split].
  - apply cancelling_permutation.
  - repeat constructor.
  - repeat constructor; eexists; eexists;
      (split; [vm_compute; reflexivity|]);
      (split; [vm_compute; reflexivity|]);
      repeat split; vm_compute; reflexivity.
Qed.

(** ** Instances of the theorems on concrete inputs *)

Lemma min_max_enclose_input_witness :
  exists r,
    analyze_data sum_left (points_of small_input) = Ok r /\
    le (min r) (max r) /\
    exists m, In m small_input /\ le (min r) m /\ le m (max r) /\
              median r = round2 m.
Proof.
  eexists. split; [vm_compute; reflexivity|].
  edestruct (min_max_enclose_input sum_left (points_of small_input))
    as (_ & _ & _ & Hle & Hodd & _);
    [discriminate | repeat constructor | vm_compute; reflexivity |].
  split; [exact Hle|]. apply Hodd. reflexivity.
Defined.

Lemma analyze_fails_only_on_overflow_witness :
  exists r, analyze_data sum_left (points_of small_input) = Ok r.
Proof.
  destruct (analyze_fails_only_on_overflow sum_left (points_of small_input)
              sum_left_nonneg) as [_ H].
  destruct H as [_ H]; [discriminate|].
  apply H. rewrite List.Exists_exists. intros (x & Hx & Hov).
  repeat (destruct Hx as [<-|Hx]; [vm_compute in Hov; discriminate Hov|]).
  destruct Hx.
Defined.

Lemma median_from_sorted_copy_witness :
  analyze_data sum_left (points_of small_input)
    = Ok {| mean := lit 2; median := lit 2; std_dev := lit 0.82;
            min := lit 1; max := lit 3; count := 3 |} /\
  exists m,
    median_of (sorted small_input) 3 = Ok m /\
    nth_error (sorted small_input) 1 = Some m /\
    lit 2 = round2 m.
Proof.
  assert (analyze_data sum_left (points_of small_input)
          = Ok {| mean := lit 2; median := lit 2; std_dev := lit 0.82;
                  min := lit 1; max := lit 3; count := 3 |}) as E
    by (vm_compute; reflexivity).
  split; [exact E|].
  destruct (median_from_sorted_copy sum_left (points_of small_input))
    as (_ & _ & m & Hm & _ & Hodd & Hr);
    [exact sum_left_nonneg | discriminate | repeat constructor |].
  rewrite E in Hr.
  exists m. split; [exact Hm|]. split; [apply Hodd; reflexivity|exact Hr].
Defined.


Lemma result_rounding_and_extremes_witness :
  analyze_data_with sum_left pow_2 pow_half (points_of small_input)
    = Ok {| mean := lit 2; median := lit 2; std_dev := lit 0.82;
            min := lit 1; max := lit 3; count := 3 |} /\
  rounded_to_2_places (div (sum_left small_input) (of_int 3)) (lit 2) /\
  In (lit 1) small_input /\ In (lit 3) small_input.
Proof.
  assert (analyze_data_with sum_left pow_2 pow_half (points_of small_input)
          = Ok {| mean := lit 2; median := lit 2; std_dev := lit 0.82;
                  min := lit 1; max := lit 3; count := 3 |}) as E
    by (vm_compute; reflexivity).
  split; [exact E|].
  pose proof (result_rounding_and_extremes sum_left pow_2 pow_half
                (points_of small_input)) as H.
  rewrite E in H.
  destruct H as ((md & sd & _ & _ & Hmean & _ & _) & _ & Hlo & _ & Hhi & _);
    [discriminate | repeat constructor |].
  split; [exact Hmean|]. split; [exact Hlo|exact Hhi].
Defined.

Lemma reordering_keeps_count_extremes_median_witness :
  exists r1 r2,
    analyze_data sum_left (points_of cancelling_input) = Ok r1 /\
    analyze_data sum_left (points_of cancelling_reordered) = Ok r2 /\
    count r1 = count r2 /\ num_eq (min r1) (min r2) /\
    num_eq (max r1) (max r2) /\ num_eq (median r1) (median r2).
Proof.
  eexists. eexists.
  split; [vm_compute; reflexivity|]. split; [vm_compute; reflexivity|].
  apply (reordering_keeps_count_extremes_median sum_left
           (points_of cancelling_input) (points_of cancelling_reordered));
    [apply cancelling_permutation | repeat constructor
    | vm_compute; reflexivity | vm_compute; reflexivity].
Defined.

Lemma generate_count_and_range_witness :
  let response :=
    (generate_sample_data bool toggle_uniform no_isoformat 1001 0 true).1 in
  len (data response) = 1000 /\
  Forall (fun p => le (of_int 10) (value p) /\ le (value p) (of_int 100))
         (data response).
Proof.
  destruct (generate_count_and_range bool toggle_uniform no_isoformat 1001 0 true)
    as (Hbig & _ & _ & _ & Hall).
  - intros []; repeat split; vm_compute; reflexivity.
  - split; [apply Hbig; reflexivity|exact Hall].
Defined.

Lemma analyze_leaves_input_list_witness :
  let h : gmap Store.ref Store.object :=
    {[ 1%positive := Store.Points (points_of small_input) ]} in
  let out := Store.analyze_data_store sum_left 1%positive h in
  out.2 !! 1%positive = Some (Store.Points (points_of small_input)) /\
  h ⊆ out.2 /\
  out.1 = analyze_data sum_left (points_of small_input).
Proof.
  intros h out.
  apply (analyze_leaves_input_list sum_left 1%positive h (points_of small_input)).
  apply lookup_singleton_eq.
Defined.

Lemma analyze_ignores_timestamps_witness :
  analyze_data sum_left
    [ {| value := lit 1; timestamp := "2024-01-01T00:00:00" |} ]
  = analyze_data sum_left
    [ {| value := lit 1; timestamp := "1999-12-31T23:59:59" |} ].
Proof. apply analyze_ignores_timestamps. reflexivity. Defined.

(** * Further properties of the handlers *)

(** ** The sample generator: timestamps and values *)

Section GenerateFacts.

Variable rng : Type.
Variable uniform : Z -> Z -> rng -> float * rng.
Variable isoformat : Z -> string.

Lemma sample_points_nth base_time indices g (i : nat) (p : DataPoint) :
  nth_error (sample_points rng uniform isoformat base_time indices g).1 i
    = Some p ->
  exists j, nth_error indices i = Some j /\
            timestamp p = isoformat (base_time - 1000000 * j).
Proof.
  revert g i. induction indices as [|j rest IH]; intros g i; simpl.
  - destruct i; discriminate.
  - destruct (uniform 10 100 g) as [u g1].
    specialize (IH g1).
    destruct (sample_points rng uniform isoformat base_time rest g1) as [ps g2].
    simpl in *. destruct i as [|i]; simpl.
    + intros [= <-]. exists j. auto.
    + apply IH.
Qed.

Lemma range_nth (n : Z) (i : nat) (j : Z) :
  nth_error (range n) i = Some j -> j = Z.of_nat i.
Proof.
  unfold range. intros H.
  rewrite nth_error_map, nth_error_seq in H.
  destruct (i <? Z.to_nat n)%nat; simpl in H; [|discriminate].
  injection H as <-. reflexivity.
Qed.

(** X1.  The point at position [i] of the response carries the time of the
    request less [i] seconds, printed by [isoformat]. *)
Theorem generate_timestamps (count now : Z) (g : rng) (i : nat) (p : DataPoint) :
  nth_error (data (generate_sample_data rng uniform isoformat count now g).1) i
    = Some p ->
  timestamp p = isoformat (now - 1000000 * Z.of_nat i).
Proof.
  unfold generate_sample_data.
  set (c := if 1000 <? count then 1000 else count).
  pose proof (sample_points_nth now (range c) g i p) as H.
  destruct (sample_points rng uniform isoformat now (range c) g) as [ps g'].
  cbn [fst snd data] in *. intros Hp.
  destruct (H Hp) as (j & Hj & ->).
  apply range_nth in Hj. subst j. reflexivity.
Qed.

End GenerateFacts.

Section RoundedSamples.

Lemma round2_hundredths_range x :
  valid x = true -> le (of_int 10) x -> le x (of_int 100) ->
  exists k, 1000 <= k <= 10000 /\ round2 x = of_hundredths false k.
Proof.
  intros Hv Hlo Hhi.
  assert (is_nan x = false) as Hx by (destruct x; [reflexivity..|discriminate|reflexivity]).
  apply leb_key in Hlo, Hhi; auto.
  change (of_int 10) with (S754_finite false 5629499534213120 (-49)) in Hlo.
  change (of_int 100) with (S754_finite false 7036874417766400 (-46)) in Hhi.
  destruct x as [s|s| |s m e]; try destruct s; cbn [key lex_le] in Hlo, Hhi;
    try lia.
  unfold valid, valid_binary, bounded, canonical_mantissa, fexp, SpecFloat.emin,
    prec, emax in Hv.
  apply andb_true_iff in Hv as [Hc _]. apply Z.eqb_eq in Hc.
  assert (Zpos (digits2_pos m) = 53) as Hd by lia.
  pose proof (digits2_lower m) as Hl. pose proof (digits2_upper m) as Hu.
  rewrite Hd in Hl, Hu.
  change (2 ^ (53 - 1)) with 4503599627370496 in Hl.
  change (2 ^ 53) with 9007199254740992 in Hu.
  cbn [round2]. exists (hundredths m e). split; [|reflexivity].
  unfold hundredths.
  assert (e = -49 \/ e = -48 \/ e = -47 \/ e = -46) as He by lia.
  destruct He as [->|[->|[->| ->]]]; cbn [Z.leb Z.compare Z.opp];
    apply round_half_even_bounds; try reflexivity;
    match goal with
    | |- context [2 ^ ?n] => let v := eval vm_compute in (2 ^ n) in
                             change (2 ^ n) with v
    end; lia.
Qed.

Variable rng : Type.
Variable uniform : Z -> Z -> rng -> float * rng.
Variable isoformat : Z -> string.

(** X2.  Every value of the response is a whole number of hundredths between
    10.00 and 100.00: the float nearest to [k / 100] for an integer [k] with
    [1000 <= k <= 10000].  [random.uniform(10, 100)] is taken by its
    contract. *)
Theorem generate_values_are_hundredths (count now : Z) (g : rng) :
  (forall g', valid (uniform 10 100 g').1 = true /\
              le (of_int 10) (uniform 10 100 g').1 /\
              le (uniform 10 100 g').1 (of_int 100)) ->
  Forall
    (fun p => exists k, 1000 <= k <= 10000 /\ value p = of_hundredths false k)
    (data (generate_sample_data rng uniform isoformat count now g).1).
Proof.
  intros Hu. unfold generate_sample_data.
  set (c := if 1000 <? count then 1000 else count).
  destruct (sample_points_spec rng uniform isoformat
              (fun p => exists k, 1000 <= k <= 10000 /\
                                  value p = of_hundredths false k)
              now (range c)) with (g := g) as [_ Hall].
  { intros g' i. cbn [value]. destruct (Hu g') as (Hv & Hlo & Hhi).
    apply round2_hundredths_range; assumption. }
  destruct (sample_points rng uniform isoformat now (range c) g) as [ps g'].
  exact Hall.
Qed.

End RoundedSamples.

(** ** The prediction handler *)

Section PredictFacts.

Lemma round_half_even_near p q a b :
  0 < q -> (2 * a - 1) * q < 2 * p -> 2 * p < (2 * b + 1) * q ->
  a <= round_half_even p q <= b.
Proof.
  intros Hq Ha Hb. unfold round_half_even.
  pose proof (Z.div_mod p q) as Hp. pose proof (Z.mod_pos_bound p q Hq) as Hr.
  set (k := p / q) in *. set (r := p mod q) in *.
  assert (a - 1 <= k) by nia.
  assert (k <= b) by nia.
  destruct (Z.compare_spec (2 * r) q) as [E|E|E].
  - assert (k <> a - 1) by nia. assert (k <> b) by nia.
    destruct (Z.even k); lia.
  - assert (k <> a - 1) by nia. lia.
  - assert (k <> b) by nia. lia.
Qed.

Lemma confidence_hundredths_ok :
  forallb
    (fun k => leb (lit 0.7) (of_hundredths false k)
              && leb (of_hundredths false k) (lit 0.99))
    (map (fun i => 70 + Z.of_nat i) (seq 0 30)) = true.
Proof. vm_compute. reflexivity. Qed.

Lemma round2_confidence_range x :
  valid x = true -> le (lit 0.7) x -> le x (lit 0.99) ->
  exists k, 70 <= k <= 99 /\ round2 x = of_hundredths false k /\
            le (lit 0.7) (round2 x) /\ le (round2 x) (lit 0.99).
Proof.
  intros Hv Hlo Hhi.
  assert (is_nan x = false) as Hx by (destruct x; [reflexivity..|discriminate|reflexivity]).
  apply leb_key in Hlo, Hhi; auto.
  change (lit 0.7) with (S754_finite false 6305039478318694 (-53)) in Hlo.
  change (lit 0.99) with (S754_finite false 8917127262193582 (-53)) in Hhi.
  destruct x as [s|s| |s m e]; try destruct s; cbn [key lex_le] in Hlo, Hhi;
    try lia.
  assert (e = -53) as -> by lia.
  cbn [round2].
  assert (70 <= hundredths m (-53) <= 99) as Hk.
  { unfold hundredths. cbn [Z.leb Z.compare Z.opp].
    change (2 ^ 53) with 9007199254740992.
    apply round_half_even_near; lia. }
  exists (hundredths m (-53)). split; [exact Hk|]. split; [reflexivity|].
  pose proof confidence_hundredths_ok as H.
  rewrite forallb_forall in H.
  apply andb_true_iff. apply H.
  apply in_map_iff. exists (Z.to_nat (hundredths m (-53) - 70)).
  split; [lia|]. apply in_seq. lia.
Qed.

Variable rng : Type.
Variable uniform : float -> float -> rng -> float * rng.

(** X4.  The confidence of a prediction is a whole number of hundredths
    between 0.70 and 0.99, whatever the input.  [random.uniform(0.7, 0.99)]
    is taken by its contract: a binary64 [N] with [0.7 <= N <= 0.99]. *)
Theorem ml_predict_confidence (value : float) (g : rng) :
  (forall g', valid (uniform (lit 0.7) (lit 0.99) g').1 = true /\
              le (lit 0.7) (uniform (lit 0.7) (lit 0.99) g').1 /\
              le (uniform (lit 0.7) (lit 0.99) g').1 (lit 0.99)) ->
  let response := (ml_predict rng uniform value g).1 in
  le (lit 0.7) (confidence response) /\
  le (confidence response) (lit 0.99) /\
  exists k, 70 <= k <= 99 /\ confidence response = of_hundredths false k.
Proof.
  intros Hu response. subst response. unfold ml_predict.
  destruct (uniform (of_int (-5)) (of_int 5) g) as [noise g1].
  destruct (Hu g1) as (Hv & Hlo & Hhi).
  destruct (uniform (lit 0.7) (lit 0.99) g1) as [c g2].
  cbn [fst snd confidence] in *.
  destruct (round2_confidence_range c Hv Hlo Hhi) as (k & Hk & E & L & U).
  eauto.
Qed.

(** X5.  The input of a prediction is not validated: an infinite value gives
    the prediction of the same infinity and NaN gives NaN, the noise being a
    finite number. *)
Theorem ml_predict_not_finite (value : float) (g : rng) :
  (forall g', le (of_int (-5)) (uniform (of_int (-5)) (of_int 5) g').1 /\
              le (uniform (of_int (-5)) (of_int 5) g').1 (of_int 5)) ->
  is_finite value = false ->
  prediction (ml_predict rng uniform value g).1 = value /\
  input (ml_predict rng uniform value g).1 = value.
Proof.
  intros Hu Hval. unfold ml_predict.
  destruct (Hu g) as (Hlo & Hhi).
  destruct (uniform (of_int (-5)) (of_int 5) g) as [noise g1].
  destruct (uniform (lit 0.7) (lit 0.99) g1) as [c g2].
  cbn [fst snd prediction input] in *.
  split; [|reflexivity].
  change (of_int (-5)) with (S754_finite true 5629499534213120 (-50)) in Hlo.
  change (of_int 5) with (S754_finite false 5629499534213120 (-50)) in Hhi.
  change (lit 1.5) with (S754_finite false 6755399441055744 (-52)).
  unfold le, leb, SFleb in Hlo, Hhi.
  destruct value as [sv|sv| |sv mv ev]; try discriminate Hval;
    destruct noise as [sn|sn| |sn mn en]; try destruct sn;
    try discriminate Hlo; try discriminate Hhi;
    try destruct sv; reflexivity.
Qed.

End PredictFacts.

(** ** More on [analyze_data]: no NaN from finite values *)

Section NotNan.

Lemma shr_fexp_nonneg m e l :
  0 <= m -> 0 <= shr_m (shr_fexp prec emax m e l).1.
Proof.
  intros Hm. unfold shr_fexp, shr.
  destruct (fexp prec emax (Zdigits2 m + e) - e) as [|n|n];
    cbn [fst]; rewrite ?shr_record_of_loc_m; auto.
  rewrite iter_shr_1_m by (rewrite shr_record_of_loc_m; auto).
  rewrite shr_record_of_loc_m. apply Z.div_pos; lia.
Qed.

Lemma binary_round_aux_not_nan s m e l :
  0 <= m -> is_nan (binary_round_aux prec emax s m e l) = false.
Proof.
  intros Hm. unfold binary_round_aux.
  pose proof (shr_fexp_nonneg m e l Hm) as H1.
  destruct (shr_fexp prec emax m e l) as [mrs' e']. cbn [fst] in H1.
  pose proof (round_nearest_even_ge (shr_m mrs') (loc_of_shr_record mrs')) as Hr.
  pose proof (shr_fexp_nonneg
                (round_nearest_even (shr_m mrs') (loc_of_shr_record mrs'))
                e' loc_Exact ltac:(lia)) as H2.
  destruct (shr_fexp prec emax _ e' loc_Exact) as [mrs'' e'']. cbn [fst] in H2.
  destruct (shr_m mrs''); try lia; [reflexivity|].
  destruct (e'' <=? emax - prec); reflexivity.
Qed.

Lemma binary_normalize_not_nan z e :
  is_nan (binary_normalize prec emax z e false) = false.
Proof.
  unfold binary_normalize, binary_round.
  destruct z as [|p|p]; [reflexivity| |];
    match goal with
    | |- context [let '(_, _) := ?p in _] => destruct p
    end; apply binary_round_aux_not_nan; lia.
Qed.

(** Adding a finite number never produces NaN from a number. *)
Lemma add_finite_not_nan x y :
  is_nan x = false -> is_finite y = true -> is_nan (add x y) = false.
Proof.
  unfold add, SFadd.
  destruct x as [sx|sx| |sx mx ex], y as [sy|sy| |sy my ey];
    try discriminate; intros _ _; try reflexivity.
  - destruct sx, sy; reflexivity.
  - apply binary_normalize_not_nan.
Qed.

Lemma sub_finite_not_nan x y :
  is_finite x = true -> is_nan y = false -> is_nan (sub x y) = false.
Proof.
  unfold sub, SFsub.
  destruct x as [sx|sx| |sx mx ex], y as [sy|sy| |sy my ey];
    try discriminate; intros _ _; try reflexivity.
  - destruct sx, sy; reflexivity.
  - apply binary_normalize_not_nan.
Qed.

Lemma sum_left_not_nan l : all_finite l -> is_nan (sum_left l) = false.
Proof.
  unfold sum_left. assert (is_nan pos_zero = false) as H0 by reflexivity.
  revert H0. generalize pos_zero.
  induction l as [|x l IH]; intros a Ha Hl; simpl; auto.
  inversion Hl; subst. apply IH; auto using add_finite_not_nan.
Qed.

Lemma div_eucl_nonneg a b : 0 <= a -> 0 < b -> 0 <= (Z.div_eucl a b).1.
Proof.
  intros Ha Hb. change (Z.div_eucl a b).1 with (a / b). apply Z.div_pos; lia.
Qed.

(** *** Digits, shifts and the exponent of a rounded number *)

Lemma Zdigits2_bounds m :
  0 < m -> 0 < Zdigits2 m /\ 2 ^ (Zdigits2 m - 1) <= m < 2 ^ Zdigits2 m.
Proof.
  destruct m as [|p|p]; try lia. intros _. cbn [Zdigits2].
  pose proof (digits2_lower p). pose proof (digits2_upper p). lia.
Qed.

Lemma Zdigits2_le m k : 0 <= k -> 0 <= m < 2 ^ k -> Zdigits2 m <= k.
Proof.
  intros Hk [Hm Hlt]. destruct (Z.eq_dec m 0) as [->|Hne]; [simpl; lia|].
  destruct (Zdigits2_bounds m ltac:(lia)) as (Hd & Hlo & _).
  destruct (Z_le_gt_dec (Zdigits2 m) k) as [|Hgt]; auto.
  assert (2 ^ k <= 2 ^ (Zdigits2 m - 1)) by (apply Z.pow_le_mono_r; lia).
  lia.
Qed.

Lemma Zdigits2_nonneg m : 0 <= Zdigits2 m.
Proof. destruct m; simpl; lia. Qed.

Lemma shl_align_spec m e e' :
  Zpos (shl_align m e e').1 = Zpos m * 2 ^ (e - (shl_align m e e').2) /\
  (shl_align m e e').2 = Z.min e e'.
Proof.
  unfold shl_align. destruct (e' - e) as [|d|d] eqn:E; cbn [fst snd].
  - split; [rewrite Z.sub_diag; lia|lia].
  - split; [rewrite Z.sub_diag; lia|lia].
  - split; [|lia]. replace (e - e') with (Zpos d) by lia.
    clear E. induction d as [|d IH] using Pos.peano_ind.
    + simpl. lia.
    + rewrite Pos.iter_succ, Pos2Z.inj_xO, IH, Pos2Z.inj_succ.
      rewrite Z.pow_succ_r by lia. lia.
Qed.

Lemma shr_fexp_spec m e l :
  0 <= m ->
  let n := Z.max 0 (fexp prec emax (Zdigits2 m + e) - e) in
  shr_m (shr_fexp prec emax m e l).1 = m / 2 ^ n /\
  (shr_fexp prec emax m e l).2 = e + n.
Proof.
  intros Hm n. subst n. unfold shr_fexp, shr.
  destruct (fexp prec emax (Zdigits2 m + e) - e) as [|p|p];
    cbn [fst snd]; rewrite ?shr_record_of_loc_m.
  - rewrite Z.max_l by lia. rewrite Z.div_1_r. lia.
  - rewrite iter_shr_1_m by (rewrite shr_record_of_loc_m; auto).
    rewrite shr_record_of_loc_m, Z.max_r by lia. lia.
  - rewrite Z.max_l by lia. rewrite Z.div_1_r. lia.
Qed.

(** A number below [2^1024] whose exponent is within the format does not
    round to an infinity. *)
Lemma binary_round_aux_not_inf s m e l :
  0 <= m -> Zdigits2 m + e <= 1023 -> e <= 971 ->
  forall s', binary_round_aux prec emax s m e l <> S754_infinity s'.
Proof.
  intros Hm Hmag He s'. unfold binary_round_aux.
  destruct (shr_fexp_spec m e l Hm) as [M1 E1].
  destruct (shr_fexp prec emax m e l) as [mrs' e']. cbn [fst snd] in *.
  set (n := Z.max 0 (fexp prec emax (Zdigits2 m + e) - e)) in *.
  set (m2 := round_nearest_even (shr_m mrs') (loc_of_shr_record mrs')).
  assert (shr_m mrs' <= m2 <= shr_m mrs' + 1) as Hm2.
  { subst m2. destruct (loc_of_shr_record mrs') as [|[]]; simpl; try lia.
    destruct (Z.even (shr_m mrs')); lia. }
  assert (0 <= shr_m mrs') as Hm1 by (rewrite M1; apply Z.div_pos; lia).
  destruct (shr_fexp_spec m2 e' loc_Exact ltac:(lia)) as [M3 E3].
  destruct (shr_fexp prec emax m2 e' loc_Exact) as [mrs'' e'']. cbn [fst snd] in *.
  destruct (shr_m mrs'') as [|m3|m3]; try discriminate.
  destruct (e'' <=? emax - prec) eqn:Ee; [discriminate|]. exfalso.
  apply Z.leb_gt in Ee. unfold emax, prec in Ee.
  assert (e' <= 971) as He'.
  { subst e' n. unfold fexp, SpecFloat.emin, prec, emax. lia. }
  assert (Zdigits2 m2 + e' <= 1024) as Hd2.
  { assert (0 <= n) by (subst n; lia).
    destruct (Z_le_gt_dec (Zdigits2 m) n) as [Hsmall|Hbig].
    - assert (shr_m mrs' = 0) as Hz.
      { rewrite M1. apply Z.div_small. split; [lia|].
        destruct (Z.eq_dec m 0) as [->|]; [apply Z.pow_pos_nonneg; lia|].
        destruct (Zdigits2_bounds m ltac:(lia)) as (_ & _ & Hu).
        apply Z.lt_le_trans with (2 ^ Zdigits2 m); auto.
        apply Z.pow_le_mono_r; lia. }
      assert (Zdigits2 m2 <= 1) by (apply Zdigits2_le; simpl; lia).
      lia.
    - assert (0 < m) as Hpos
        by (destruct (Z.eq_dec m 0) as [->|]; [simpl in Hbig; lia|lia]).
      assert (Zdigits2 m2 <= Zdigits2 m - n + 1); [|lia].
      apply Zdigits2_le; [lia|]. split; [lia|].
      assert (shr_m mrs' < 2 ^ (Zdigits2 m - n)).
      { rewrite M1. apply Z.div_lt_upper_bound; [apply Z.pow_pos_nonneg; lia|].
        rewrite <- Z.pow_add_r by lia.
        replace (n + (Zdigits2 m - n)) with (Zdigits2 m) by lia.
        destruct (Zdigits2_bounds m ltac:(lia)) as (_ & _ & Hu). exact Hu. }
      rewrite Z.pow_add_r by lia. change (2 ^ 1) with 2. lia. }
  revert E3 Ee. unfold fexp, SpecFloat.emin, prec, emax. lia.
Qed.

Lemma of_int_finite n :
  0 < n < 2 ^ 1023 -> exists m e, of_int n = S754_finite false m e.
Proof.
  intros [Hn Hlt]. destruct n as [|p|p]; try lia.
  destruct (of_int_pos p) as [H|H]; [exact H|]. exfalso. revert H.
  unfold of_int, binary_normalize, binary_round.
  destruct (shl_align_spec p 0 (fexp prec emax (Zpos (digits2_pos p) + 0)))
    as [Hm He].
  destruct (shl_align p 0 _) as [mz ez]. cbn [fst snd] in *.
  apply binary_round_aux_not_inf; [lia| |lia].
  assert (ez <= 0) by lia.
  assert (Zdigits2 (Zpos p) <= 1023) by (apply Zdigits2_le; lia).
  assert (Zdigits2 (Zpos mz) <= Zdigits2 (Zpos p) - ez); [|lia].
  apply Zdigits2_le; [pose proof (Zdigits2_nonneg (Zpos p)); lia|].
  split; [lia|]. rewrite Hm.
  destruct (Zdigits2_bounds (Zpos p) ltac:(lia)) as (Hd & _ & Hu).
  replace (Zdigits2 (Zpos p) - ez) with (Zdigits2 (Zpos p) + (0 - ez)) by lia.
  rewrite Z.pow_add_r by lia.
  apply Z.mul_lt_mono_pos_r; [apply Z.pow_pos_nonneg; lia|exact Hu].
Qed.

Lemma div_of_int_not_nan x n :
  0 < n < 2 ^ 1023 -> is_nan x = false -> is_nan (div x (of_int n)) = false.
Proof.
  intros Hn. destruct (of_int_finite n Hn) as (m & e & ->).
  unfold div, SFdiv.
  destruct x as [sx|sx| |sx mx ex]; try discriminate; intros _;
    try reflexivity.
  unfold SFdiv_core_binary.
  match goal with
  | |- context [Z.div_eucl ?a ?b] =>
      pose proof (div_eucl_nonneg a b) as Hq; destruct (Z.div_eucl a b) as [q r]
  end.
  apply binary_round_aux_not_nan. cbn [fst] in Hq. apply Hq; [|lia].
  destruct (ex - e - _) as [|s|s]; try lia.
  rewrite Z.shiftl_mul_pow2 by lia.
  apply Z.mul_nonneg_nonneg; [lia|apply Z.pow_nonneg; lia].
Qed.

(** Sum of numbers with a clear sign bit, none of them NaN. *)
Lemma add_nonneg_not_nan x y :
  nonneg x -> is_nan x = false -> nonneg y -> is_nan y = false ->
  is_nan (add x y) = false.
Proof.
  unfold nonneg, add, SFadd.
  destruct x as [sx|sx| |sx mx ex], y as [sy|sy| |sy my ey];
    simpl signbit; try discriminate; intros -> _ -> _; try reflexivity.
  apply binary_normalize_not_nan.
Qed.

Lemma sum_left_nonneg_not_nan l :
  Forall (fun x => nonneg x /\ is_nan x = false) l ->
  nonneg (sum_left l) /\ is_nan (sum_left l) = false.
Proof.
  unfold sum_left.
  assert (nonneg pos_zero /\ is_nan pos_zero = false) as H0 by (split; reflexivity).
  revert H0. generalize pos_zero.
  induction l as [|x l IH]; intros a Ha Hl; simpl; auto.
  inversion Hl as [|? ? [Hx1 Hx2] Hl']; subst. destruct Ha as [Ha1 Ha2].
  apply IH; auto. split; [apply add_nonneg|apply add_nonneg_not_nan]; auto.
Qed.

Lemma pow_2_not_nan x y :
  is_nan x = false -> pow_2 x = Ok y -> is_nan y = false.
Proof.
  destruct x as [s|s| |s m e]; cbn [pow_2]; try discriminate; intros _;
    try (intros [= <-]; reflexivity).
  pose proof (binary_round_aux_not_nan false (Zpos (m * m)) (e + e) loc_Exact
                ltac:(lia)) as H.
  unfold mul, SFmul. cbn [xorb].
  destruct (binary_round_aux prec emax false (Zpos (m * m)) (e + e) loc_Exact);
    try discriminate; intros [= <-]; assumption.
Qed.

Lemma pow_half_not_nan x y :
  nonneg x -> is_nan x = false -> pow_half x = Ok y ->
  nonneg y /\ is_nan y = false.
Proof.
  unfold nonneg.
  destruct x as [[]|[]| |[] m e]; cbn [pow_half signbit]; try discriminate;
    intros _ _ [= <-]; try (split; reflexivity).
  unfold sqrt, SFsqrt, SFsqrt_core_binary.
  match goal with
  | |- context [Z.sqrtrem ?a] =>
      pose proof (Z.sqrtrem_spec a) as Hs; destruct (Z.sqrtrem a) as [q r]
  end.
  split; [apply binary_round_aux_nonneg|].
  apply binary_round_aux_not_nan.
  match type of Hs with
  | 0 <= ?a -> _ => assert (0 <= a) as Ha
  end.
  { destruct (e - 2 * _) as [|s|s]; try lia.
    rewrite Z.shiftl_mul_pow2 by lia.
    apply Z.mul_nonneg_nonneg; [lia|apply Z.pow_nonneg; lia]. }
  specialize (Hs Ha). cbv zeta in Hs. nia.
Qed.

Lemma round2_nonneg x :
  nonneg x -> is_nan x = false -> le pos_zero (round2 x).
Proof.
  unfold nonneg.
  destruct x as [[]|[]| |[] m e]; cbn [round2 signbit]; try discriminate;
    intros _ _; try reflexivity.
  unfold of_hundredths.
  destruct (hundredths m e) as [|k|k]; try reflexivity.
  unfold div, SFdiv, SFdiv_core_binary. cbn [xorb].
  match goal with
  | |- context [Z.div_eucl ?a ?b] =>
      pose proof (div_eucl_nonneg a b) as Hq; destruct (Z.div_eucl a b) as [q r]
  end.
  cbn [fst] in Hq.
  assert (0 <= q) as Hq'.
  { apply Hq; [|lia].
    match goal with
    | |- 0 <= match ?t with _ => _ end => destruct t as [|sh|sh]
    end; try lia.
    rewrite Z.shiftl_mul_pow2 by lia.
    apply Z.mul_nonneg_nonneg; [lia|apply Z.pow_nonneg; lia]. }
  match goal with
  | |- le _ (binary_round_aux ?p ?em false q ?e ?l) =>
      pose proof (binary_round_aux_nonneg q e l) as Hs;
      pose proof (binary_round_aux_not_nan false q e l Hq') as Hn;
      destruct (binary_round_aux p em false q e l) as [[]|[]| |[] ? ?]
  end; try discriminate; reflexivity.
Qed.

End NotNan.

(** ** More on [analyze_data]: sign of the deviation, NaN, a single value *)

Section AnalyzeMore.

Lemma mapM_ok_Forall_in {A B} (f : A -> result B) (P : B -> Prop) l ys :
  (forall x y, In x l -> f x = Ok y -> P y) -> mapM f l = Ok ys -> Forall P ys.
Proof.
  revert ys. induction l as [|x l IH]; simpl; intros ys Hf H.
  - injection H as <-. constructor.
  - apply bind_ok in H as (y & Hy & H).
    apply bind_ok in H as (ys' & Hys & H).
    injection H as <-. constructor; eauto.
Qed.

(** X6.  On finite values the returned standard deviation is a number, not
    NaN, and it is not negative.  [sum] is required to give no NaN on finite
    numbers and to keep numbers with a clear sign bit that way; the count is
    below [2^53]. *)
Theorem std_dev_not_negative
  (py_sum : list float -> float) (data : list DataPoint) (r : AnalysisResult) :
  (forall l, all_finite l -> is_nan (py_sum l) = false) ->
  (forall l, Forall (fun x => nonneg x /\ is_nan x = false) l ->
             nonneg (py_sum l) /\ is_nan (py_sum l) = false) ->
  all_finite (map value data) ->
  len data < 2 ^ 53 ->
  analyze_data py_sum data = Ok r ->
  le pos_zero (std_dev r) /\ is_nan (std_dev r) = false.
Proof.
  intros H1 H2 Hfin Hlen Hr.
  assert (data = [] \/ data <> []) as [->|Hne]
    by (destruct data; [left; reflexivity|right; discriminate]).
  { cbn in Hr. injection Hr as <-. split; reflexivity. }
  pose proof (values_nonempty data Hne) as Hv.
  destruct (analyze_data_ok py_sum data r Hv Hr)
    as (mean_ & median_ & variance & sd & lo & hi & Hmean & _ & Hvar & Hsd & _ & _ & ->).
  cbn [std_dev].
  pose proof (len_pos _ Hv) as Hpos.
  assert (0 < len (map value data) < 2 ^ 1023) as Hn.
  { split; [exact Hpos|]. unfold len in *. rewrite length_map.
    apply Z.lt_trans with (2 ^ 53); [exact Hlen|reflexivity]. }
  rewrite truediv_of_int in Hmean by exact Hpos. injection Hmean as <-.
  unfold variance_of, variance_with in Hvar.
  apply bind_ok in Hvar as (squares & Hsq & Hvar).
  rewrite truediv_of_int in Hvar by exact Hpos. injection Hvar as <-.
  assert (Forall (fun x => nonneg x /\ is_nan x = false) squares) as Hsqs.
  { eapply mapM_ok_Forall_in; [|exact Hsq].
    intros x y Hx Hy. cbv beta in Hy.
    split; [eapply pow_2_nonneg; exact Hy|].
    eapply pow_2_not_nan; [|exact Hy].
    apply sub_finite_not_nan.
    - unfold all_finite in Hfin. rewrite List.Forall_forall in Hfin. auto.
    - apply div_of_int_not_nan; auto. }
  destruct (H2 _ Hsqs) as [Hs1 Hs2].
  destruct (pow_half_not_nan _ _
              (div_of_int_nonneg _ _ Hpos Hs1)
              (div_of_int_not_nan _ _ Hn Hs2) Hsd) as [Hd1 Hd2].
  split; [apply round2_nonneg; assumption|].
  pose proof (round2_nonneg sd Hd1 Hd2) as Hle.
  unfold le, leb, SFleb in Hle. destruct (round2 sd); try reflexivity.
  discriminate Hle.
Qed.

Lemma fold_add_nan l : fold_left add l S754_nan = S754_nan.
Proof. induction l as [|x l IH]; simpl; auto. Qed.

Lemma sum_left_nan l : In S754_nan l -> sum_left l = S754_nan.
Proof.
  unfold sum_left. generalize pos_zero.
  induction l as [|x l IH]; intros a; simpl; [tauto|].
  intros [->|Hin]; [|apply IH; exact Hin].
  assert (add a S754_nan = S754_nan) as -> by (destruct a; reflexivity).
  apply fold_add_nan.
Qed.

Lemma neumaier_nan c l : neumaier S754_nan c l = S754_nan.
Proof.
  revert c. induction l as [|x l IH]; intros c; simpl.
  - destruct (is_finite c && negb (eqb c pos_zero)); reflexivity.
  - apply IH.
Qed.

Lemma neumaier_in_nan f c l : In S754_nan l -> neumaier f c l = S754_nan.
Proof.
  revert f c. induction l as [|x l IH]; intros f c; simpl; [tauto|].
  intros [->|Hin]; [|apply IH; exact Hin].
  assert (add f S754_nan = S754_nan) as -> by (destruct f; reflexivity).
  apply neumaier_nan.
Qed.

Lemma sum_compensated_nan l : In S754_nan l -> sum_compensated l = S754_nan.
Proof.
  destruct l as [|x l]; simpl; [tauto|].
  intros [->|Hin]; [apply neumaier_nan|apply neumaier_in_nan; exact Hin].
Qed.

Lemma builtin_sums_nan py_sum l :
  In py_sum builtin_sums -> In S754_nan l -> py_sum l = S754_nan.
Proof.
  intros [<-|[<-|[]]]; [apply sum_left_nan|apply sum_compensated_nan].
Qed.

Lemma mapM_const_ok {A B} (f : A -> result B) (c : B) l :
  (forall x, f x = Ok c) -> mapM f l = Ok (map (fun _ => c) l).
Proof.
  intros Hf. induction l as [|x l IH]; simpl; [reflexivity|].
  rewrite Hf, IH. reflexivity.
Qed.

(** X7.  A NaN among the values is not rejected: [analyze] returns a record,
    and its [mean] and [std_dev] are NaN, under both implementations of
    [sum]. *)
Theorem analyze_nan_input
  (py_sum : list float -> float) (data : list DataPoint) :
  In py_sum builtin_sums ->
  In S754_nan (map value data) ->
  exists r, analyze_data py_sum data = Ok r /\
            mean r = S754_nan /\ std_dev r = S754_nan.
Proof.
  intros Hsum Hnan.
  assert (data <> []) as Hne by (destruct data; [destruct Hnan|discriminate]).
  destruct (analyze_data_reduce py_sum data Hne) as (md & _ & ->).
  pose proof (values_nonempty data Hne) as Hv.
  pose proof (len_pos _ Hv) as Hpos.
  rewrite (builtin_sums_nan py_sum _ Hsum Hnan).
  change (div S754_nan (of_int (len (map value data)))) with S754_nan.
  unfold variance_of, variance_with.
  rewrite (mapM_const_ok _ S754_nan)
    by (intros x; destruct x; reflexivity).
  cbn [bind]. rewrite truediv_of_int by exact Hpos. cbn [bind].
  rewrite (builtin_sums_nan py_sum _ Hsum).
  2:{ destruct (map value data); [congruence|left; reflexivity]. }
  change (div S754_nan (of_int (len (map value data)))) with S754_nan.
  cbn [pow_half bind].
  destruct (map value data) as [|v vs]; [congruence|].
  cbn [min_ max_ bind]. eexists. split; [reflexivity|]. split; reflexivity.
Qed.

End AnalyzeMore.

(** ** A single value *)

Section SingleValue.

(** Rounding a number that already is in the format returns it. *)
Lemma binary_round_aux_canonical s m e :
  bounded prec emax m e = true ->
  binary_round_aux prec emax s (Zpos m) e loc_Exact = S754_finite s m e.
Proof.
  unfold bounded, canonical_mantissa. intros H.
  apply andb_true_iff in H as [Hc He]. apply Z.eqb_eq in Hc.
  unfold binary_round_aux, shr_fexp. cbn [Zdigits2].
  rewrite Hc, Z.sub_diag. cbn [shr shr_record_of_loc shr_m loc_of_shr_record
                                round_nearest_even Zdigits2].
  rewrite Hc, Z.sub_diag. cbn [shr shr_record_of_loc shr_m].
  rewrite He. reflexivity.
Qed.

Lemma binary_round_aux_doubled s m e :
  Zpos (digits2_pos m) = 53 -> -1074 < e -> e <= 971 ->
  binary_round_aux prec emax s (Zpos m~0) (e - 1) loc_Exact = S754_finite s m e.
Proof.
  intros Hd Hlo Hhi.
  assert (fexp prec emax (Zdigits2 (Zpos m~0) + (e - 1)) - (e - 1) = 1) as E1.
  { cbn [Zdigits2 digits2_pos]. rewrite Pos2Z.inj_succ, Hd.
    unfold fexp, SpecFloat.emin, prec, emax. lia. }
  assert (fexp prec emax (Zdigits2 (Zpos m) + (e - 1 + 1)) - (e - 1 + 1) = 0) as E2.
  { cbn [Zdigits2]. rewrite Hd. unfold fexp, SpecFloat.emin, prec, emax. lia. }
  unfold binary_round_aux, shr_fexp. rewrite E1.
  cbn [shr shr_record_of_loc SpecFloat.iter_pos shr_1 orb shr_m
       loc_of_shr_record round_nearest_even].
  rewrite E2. cbn [shr shr_record_of_loc shr_m].
  replace (e - 1 + 1) with e by lia.
  assert ((e <=? emax - prec) = true) as ->
    by (apply Z.leb_le; unfold emax, prec; lia).
  reflexivity.
Qed.

(** Division by [1] is exact. *)
Lemma div_one x : valid x = true -> div x (of_int 1) = x.
Proof.
  change (of_int 1) with (S754_finite false 4503599627370496 (-52)).
  destruct x as [s|s| |s m e]; intros Hv;
    try (destruct s; reflexivity); try reflexivity.
  unfold valid, valid_binary in Hv. pose proof Hv as Hb.
  unfold bounded, canonical_mantissa in Hv.
  apply andb_true_iff in Hv as [Hc He].
  apply Z.eqb_eq in Hc. apply Z.leb_le in He.
  unfold fexp, SpecFloat.emin, prec, emax in Hc, He.
  unfold div, SFdiv, SFdiv_core_binary.
  replace (xorb s false) with s by (destruct s; reflexivity).
  change (Zdigits2 4503599627370496) with 53. cbn [Zdigits2].
  destruct (Z.eq_dec e (-1074)) as [->|Hne].
  - assert (fexp prec emax (Zpos (digits2_pos m) + -1074 - (53 + -52)) = -1074) as ->
      by (unfold fexp, SpecFloat.emin, prec, emax; lia).
    change (Z.min (-1074) (-1074 - -52)) with (-1074).
    change (-1074 - -52 - -1074) with 52. cbv iota.
    rewrite Z.shiftl_mul_pow2 by lia.
    assert (Z.div_eucl (Zpos m * 2 ^ 52) 4503599627370496 = (Zpos m, 0)) as ->.
    { pose proof (Z.div_eucl_eq (Zpos m * 2 ^ 52) 4503599627370496 ltac:(lia)) as H.
      pose proof (Z.mod_pos_bound (Zpos m * 2 ^ 52) 4503599627370496 ltac:(lia)) as Hr.
      unfold Z.modulo in Hr.
      destruct (Z.div_eucl (Zpos m * 2 ^ 52) 4503599627370496) as [q r].
      change (2 ^ 52) with 4503599627370496 in H.
      f_equal; lia. }
    change (new_location 4503599627370496 0) with loc_Exact.
    apply binary_round_aux_canonical. exact Hb.
  - assert (Zpos (digits2_pos m) = 53) as Hd by lia.
    rewrite Hd.
    assert (fexp prec emax (53 + e - (53 + -52)) = e - 1) as ->
      by (unfold fexp, SpecFloat.emin, prec, emax; lia).
    rewrite Z.min_l by lia.
    replace (e - -52 - (e - 1)) with 53 by lia. cbv iota.
    rewrite Z.shiftl_mul_pow2 by lia.
    assert (Z.div_eucl (Zpos m * 2 ^ 53) 4503599627370496 = (Zpos m~0, 0)) as ->.
    { pose proof (Z.div_eucl_eq (Zpos m * 2 ^ 53) 4503599627370496 ltac:(lia)) as H.
      pose proof (Z.mod_pos_bound (Zpos m * 2 ^ 53) 4503599627370496 ltac:(lia)) as Hr.
      unfold Z.modulo in Hr.
      destruct (Z.div_eucl (Zpos m * 2 ^ 53) 4503599627370496) as [q r].
      change (2 ^ 53) with 9007199254740992 in H.
      rewrite Pos2Z.inj_xO. f_equal; lia. }
    change (new_location 4503599627370496 0) with loc_Exact.
    apply binary_round_aux_doubled; lia.
Qed.

Lemma sub_self s m e : sub (S754_finite s m e) (S754_finite s m e) = pos_zero.
Proof.
  unfold sub, SFsub. cbv zeta. rewrite Z.sub_diag. reflexivity.
Qed.

Lemma builtin_sums_one py_sum (x : float) s m e :
  In py_sum builtin_sums -> x = S754_finite s m e ->
  py_sum [x] = x /\ py_sum [pos_zero] = pos_zero.
Proof. intros [<-|[<-|[]]] ->; split; reflexivity. Qed.

(** X8.  For one finite value [x] other than zero, [analyze([x])] has [mean]
    and [median] equal to [round(x, 2)], [std_dev] equal to [0.0], [min] and
    [max] equal to [x] and [count] equal to [1], under both implementations
    of [sum]. *)
Theorem analyze_one_value
  (py_sum : list float -> float) (p : DataPoint) (s : bool) (m : positive) (e : Z) :
  In py_sum builtin_sums ->
  value p = S754_finite s m e ->
  valid (value p) = true ->
  analyze_data py_sum [p]
  = Ok {| mean := round2 (value p); median := round2 (value p);
          std_dev := pos_zero; min := value p; max := value p; count := 1 |}.
Proof.
  intros Hsum Hx Hv. unfold analyze_data, analyze_data_with. cbn [map]. cbv zeta.
  change (len [value p]) with 1.
  rewrite truediv_of_int by lia. cbn [bind].
  destruct (builtin_sums_one py_sum (value p) s m e Hsum Hx) as [-> Hz].
  rewrite (div_one _ Hv).
  change (median_of (sorted [value p]) 1) with (Ok (value p)).
  cbn [bind]. unfold variance_of, variance_with. cbn [mapM bind].
  rewrite Hx at 1 2. rewrite sub_self.
  change (pow_2 pos_zero) with (Ok pos_zero). cbn [bind]. rewrite Hz.
  reflexivity.
Qed.

End SingleValue.

(** ** Rounding under a bound *)

Section RoundingBounds.

Lemma mod_pow_split m a b :
  0 <= a -> 0 <= b -> m mod 2 ^ (a + b) = 0 ->
  m mod 2 ^ a = 0 /\ (m / 2 ^ a) mod 2 ^ b = 0.
Proof.
  intros Ha Hb H.
  assert (0 < 2 ^ a) by (apply Z.pow_pos_nonneg; lia).
  assert (0 < 2 ^ b) by (apply Z.pow_pos_nonneg; lia).
  apply Z.mod_divide in H; [|rewrite Z.pow_add_r by lia; lia].
  destruct H as [k ->]. rewrite Z.pow_add_r by lia.
  replace (k * (2 ^ a * 2 ^ b)) with (k * 2 ^ b * 2 ^ a) by ring.
  rewrite Z.mod_mul by lia. rewrite Z.div_mul by lia.
  rewrite Z.mod_mul by lia. auto.
Qed.

Lemma shr_1_exact mrs :
  0 <= shr_m mrs -> shr_r mrs = false -> shr_s mrs = false ->
  shr_m mrs mod 2 = 0 ->
  shr_r (shr_1 mrs) = false /\ shr_s (shr_1 mrs) = false.
Proof.
  destruct mrs as [m r s]; simpl. intros Hm -> -> Hmod.
  destruct m as [|[p|p|]|p]; simpl; auto; try lia.
  - rewrite (Pos2Z.inj_xI p) in Hmod.
    rewrite Z.add_comm, Z.mul_comm, Z.mod_add in Hmod by lia. discriminate.
  - discriminate.
Qed.

Lemma iter_shr_1_exact p : forall mrs,
  0 <= shr_m mrs -> shr_r mrs = false -> shr_s mrs = false ->
  shr_m mrs mod 2 ^ Zpos p = 0 ->
  shr_r (SpecFloat.iter_pos shr_1 p mrs) = false /\
  shr_s (SpecFloat.iter_pos shr_1 p mrs) = false.
Proof.
  induction p as [p IH|p IH|]; intros mrs Hm Hr Hs Hmod;
    cbn [SpecFloat.iter_pos].
  - rewrite (Pos2Z.inj_xI p) in Hmod.
    replace (2 * Zpos p + 1) with (1 + (Zpos p + Zpos p)) in Hmod by lia.
    apply mod_pow_split in Hmod as [H1 H2]; try lia.
    apply mod_pow_split in H2 as [H2 H3]; try lia.
    change (2 ^ 1) with 2 in *.
    destruct (shr_1_exact mrs Hm Hr Hs H1) as [Hr1 Hs1].
    assert (0 <= shr_m (shr_1 mrs)) as Hm1
      by (rewrite shr_1_m by auto; apply Z.div_pos; lia).
    rewrite <- shr_1_m in H2, H3 by auto.
    destruct (IH _ Hm1 Hr1 Hs1 H2) as [Hr2 Hs2].
    apply IH; auto.
    + rewrite iter_shr_1_m by auto. apply Z.div_pos; [auto|].
      apply Z.pow_pos_nonneg; lia.
    + rewrite iter_shr_1_m by auto. exact H3.
  - rewrite (Pos2Z.inj_xO p) in Hmod.
    replace (2 * Zpos p) with (Zpos p + Zpos p) in Hmod by lia.
    apply mod_pow_split in Hmod as [H2 H3]; try lia.
    destruct (IH _ Hm Hr Hs H2) as [Hr2 Hs2].
    apply IH; auto.
    + rewrite iter_shr_1_m by auto. apply Z.div_pos; [auto|].
      apply Z.pow_pos_nonneg; lia.
    + rewrite iter_shr_1_m by auto. exact H3.
  - apply shr_1_exact; auto.
Qed.

Lemma loc_of_record_of_loc m l : loc_of_shr_record (shr_record_of_loc m l) = l.
Proof. destruct l as [|[]]; reflexivity. Qed.

(** The first shift of [binary_round_aux]: quotient, exponent and what is
    known of the location. *)
Lemma shr_fexp_full m e l :
  0 <= m ->
  let n := Z.max 0 (fexp prec emax (Zdigits2 m + e) - e) in
  shr_m (shr_fexp prec emax m e l).1 = m / 2 ^ n /\
  (shr_fexp prec emax m e l).2 = e + n /\
  (n = 0 -> loc_of_shr_record (shr_fexp prec emax m e l).1 = l) /\
  (l = loc_Exact -> m mod 2 ^ n = 0 ->
   loc_of_shr_record (shr_fexp prec emax m e l).1 = loc_Exact).
Proof.
  intros Hm n. destruct (shr_fexp_spec m e l Hm) as [M E].
  fold n in M, E. split; [exact M|]. split; [exact E|].
  subst n. unfold shr_fexp, shr.
  destruct (fexp prec emax (Zdigits2 m + e) - e) as [|p|p]; cbn [fst].
  - split; intros; subst; apply loc_of_record_of_loc.
  - rewrite Z.max_r by lia. split; [lia|]. intros -> Hmod.
    destruct (iter_shr_1_exact p (shr_record_of_loc m loc_Exact))
      as [Hr Hs]; auto.
    destruct (SpecFloat.iter_pos shr_1 p (shr_record_of_loc m loc_Exact))
      as [m' r' s']. simpl in *. subst. reflexivity.
  - split; intros; subst; apply loc_of_record_of_loc.
Qed.

Lemma round_nearest_even_bounds m l :
  m <= round_nearest_even m l <= m + 1 /\
  (l = loc_Exact -> round_nearest_even m l = m).
Proof.
  destruct l as [|[]]; simpl; repeat split; try lia; try discriminate;
    destruct (Z.even m); lia.
Qed.

Lemma grid_step a K G : 0 < G -> a * G < K * G -> (a + 1) * G <= K * G.
Proof.
  intros HG H. apply Z.mul_lt_mono_pos_r in H; [|exact HG].
  apply Z.mul_le_mono_nonneg_r; lia.
Qed.

Lemma loc_exact_dec (l : location) : {l = loc_Exact} + {l <> loc_Exact}.
Proof. destruct l; [left; reflexivity|right; discriminate]. Qed.

Lemma pow2_lt_exp a b : 0 <= a -> 2 ^ a < 2 ^ b -> a < b.
Proof.
  intros Ha H. destruct (Z_lt_ge_dec a b) as [|Hge]; auto.
  destruct (Z_lt_ge_dec b 0) as [Hb|Hb].
  - rewrite (Z.pow_neg_r 2 b) in H by lia.
    pose proof (Z.pow_pos_nonneg 2 a). lia.
  - assert (2 ^ b <= 2 ^ a) by (apply Z.pow_le_mono_r; lia). lia.
Qed.

(** The magnitude of a number under a bound [K * 2^eb] with [K < 2^53]. *)
Lemma magnitude_under_bound m e K eb :
  0 < m -> -1074 <= e -> -1074 <= eb -> 0 < K < 2 ^ 53 ->
  m * 2 ^ (e + 1074) <= K * 2 ^ (eb + 1074) ->
  Zdigits2 m + e - 53 <= eb.
Proof.
  intros Hm He Heb HK H.
  destruct (Zdigits2_bounds m Hm) as (Hd & Hlo & _).
  assert (2 ^ (Zdigits2 m - 1 + (e + 1074)) < 2 ^ (53 + (eb + 1074))) as Hp.
  { rewrite (Z.pow_add_r 2 (Zdigits2 m - 1)), (Z.pow_add_r 2 53) by lia.
    assert (0 < 2 ^ (e + 1074)) by (apply Z.pow_pos_nonneg; lia).
    assert (0 < 2 ^ (eb + 1074)) by (apply Z.pow_pos_nonneg; lia).
    apply Z.le_lt_trans with (m * 2 ^ (e + 1074));
      [apply Z.mul_le_mono_nonneg_r; lia|].
    apply Z.le_lt_trans with (K * 2 ^ (eb + 1074)); [exact H|].
    apply Z.mul_lt_mono_pos_r; lia. }
  apply pow2_lt_exp in Hp; lia.
Qed.

(** Rounding to nearest does not cross a bound [K * 2^eb] with [K < 2^53]:
    such a bound is a number of the format, or lies on a coarser grid. *)
Lemma binary_round_aux_small s m e l K eb E :
  0 <= m -> -1074 <= e <= E -> E <= 971 ->
  0 < K < 2 ^ 53 -> -1074 <= eb <= E ->
  m * 2 ^ (e + 1074) <= K * 2 ^ (eb + 1074) ->
  (l <> loc_Exact -> (m + 1) * 2 ^ (e + 1074) <= K * 2 ^ (eb + 1074)) ->
  small (K * 2 ^ (eb + 1074)) E (binary_round_aux prec emax s m e l).
Proof.
  intros Hm He HE HK Heb Hle Hinex.
  set (B := K * 2 ^ (eb + 1074)) in *.
  unfold binary_round_aux.
  destruct (shr_fexp_full m e l Hm) as (M1 & E1 & L0 & Lx).
  set (n := Z.max 0 (fexp prec emax (Zdigits2 m + e) - e)) in *.
  destruct (shr_fexp prec emax m e l) as [mrs' e']. cbn [fst snd] in *.
  assert (0 <= n) as Hn by (subst n; lia).
  assert (0 < 2 ^ n) as Hpn by (apply Z.pow_pos_nonneg; lia).
  assert (0 < 2 ^ (e + 1074)) as Hpe by (apply Z.pow_pos_nonneg; lia).
  assert (0 <= shr_m mrs') as Hm1 by (rewrite M1; apply Z.div_pos; lia).
  destruct (round_nearest_even_bounds (shr_m mrs') (loc_of_shr_record mrs'))
    as [Hm2 Hex].
  set (m2 := round_nearest_even (shr_m mrs') (loc_of_shr_record mrs')) in *.
  assert (2 ^ (e' + 1074) = 2 ^ n * 2 ^ (e + 1074)) as Hpow.
  { rewrite E1. rewrite <- Z.pow_add_r by lia. f_equal. lia. }
  assert (shr_m mrs' * 2 ^ n <= m) as Hfloor.
  { rewrite M1. pose proof (Z.mul_div_le m (2 ^ n) Hpn). lia. }
  assert (e' <= E) as He'.
  { destruct (Z.eq_dec n 0) as [Hz|Hnz]; [lia|].
    assert (0 < m) as Hmpos.
    { destruct (Z.eq_dec m 0) as [->|]; [|lia].
      subst n. revert Hnz. simpl Zdigits2.
      unfold fexp, SpecFloat.emin, prec, emax. lia. }
    pose proof (magnitude_under_bound m e K eb Hmpos ltac:(lia) ltac:(lia) HK Hle).
    rewrite E1. subst n. revert Hnz.
    unfold fexp, SpecFloat.emin, prec, emax. lia. }
  assert (m2 * 2 ^ (e' + 1074) <= B) as Hb2.
  { destruct (Z.eq_dec n 0) as [Hz|Hnz].
    - rewrite Hz in *. change (2 ^ 0) with 1 in *.
      rewrite Z.mul_1_l in Hpow. rewrite Hpow.
      rewrite Z.div_1_r in M1.
      destruct (loc_exact_dec l) as [Hl|Hl].
      + rewrite (L0 eq_refl), Hl in Hex. rewrite (Hex eq_refl), M1. exact Hle.
      + specialize (Hinex Hl). rewrite M1 in Hm2. nia.
    - assert (0 < m) as Hmpos.
      { destruct (Z.eq_dec m 0) as [->|]; [|lia].
        subst n. revert Hnz. simpl Zdigits2.
        unfold fexp, SpecFloat.emin, prec, emax. lia. }
      pose proof (magnitude_under_bound m e K eb Hmpos ltac:(lia) ltac:(lia) HK Hle)
        as Hmag.
      assert (e' <= eb) as Hgrid.
      { rewrite E1. subst n. revert Hnz.
        unfold fexp, SpecFloat.emin, prec, emax. lia. }
      assert (B = (K * 2 ^ (eb - e')) * 2 ^ (e' + 1074)) as HB.
      { subst B. rewrite <- Z.mul_assoc, <- Z.pow_add_r by lia.
        do 2 f_equal. lia. }
      assert (0 < 2 ^ (e' + 1074)) by (apply Z.pow_pos_nonneg; lia).
      destruct (loc_exact_dec l) as [Hl|Hl];
        [destruct (Z.eq_dec (m mod 2 ^ n) 0) as [Hmod|Hmod]|].
      + rewrite (Lx Hl Hmod) in Hex. rewrite (Hex eq_refl).
        rewrite Hpow. nia.
      + assert (shr_m mrs' * 2 ^ n < m).
        { rewrite M1. pose proof (Z.div_mod m (2 ^ n) ltac:(lia)).
          pose proof (Z.mod_pos_bound m (2 ^ n) Hpn). lia. }
        assert (shr_m mrs' * 2 ^ (e' + 1074) < B) as Hlt by (rewrite Hpow; nia).
        apply Z.le_trans with ((shr_m mrs' + 1) * 2 ^ (e' + 1074));
          [apply Z.mul_le_mono_nonneg_r; lia|].
        rewrite HB in Hlt |- *. apply grid_step; auto.
      + specialize (Hinex Hl).
        assert (shr_m mrs' * 2 ^ (e' + 1074) < B) as Hlt by (rewrite Hpow; nia).
        apply Z.le_trans with ((shr_m mrs' + 1) * 2 ^ (e' + 1074));
          [apply Z.mul_le_mono_nonneg_r; lia|].
        rewrite HB in Hlt |- *. apply grid_step; auto. }
  assert (0 <= m2) as Hm2pos by lia.
  destruct (shr_fexp_full m2 e' loc_Exact Hm2pos) as (M3 & E3 & _ & _).
  set (n2 := Z.max 0 (fexp prec emax (Zdigits2 m2 + e') - e')) in *.
  destruct (shr_fexp prec emax m2 e' loc_Exact) as [mrs'' e'']. cbn [fst snd] in *.
  assert (0 <= n2) as Hn2 by (subst n2; lia).
  assert (0 < 2 ^ n2) as Hpn2 by (apply Z.pow_pos_nonneg; lia).
  assert (0 < 2 ^ (e' + 1074)) by (apply Z.pow_pos_nonneg; lia).
  assert (e'' <= E) as He''.
  { destruct (Z.eq_dec n2 0) as [Hz|Hnz]; [lia|].
    assert (0 < m2) as Hmpos.
    { destruct (Z.eq_dec m2 0) as [Hz|]; [|lia].
      subst n2. revert Hnz. rewrite Hz. simpl Zdigits2.
      unfold fexp, SpecFloat.emin, prec, emax. lia. }
    pose proof (magnitude_under_bound m2 e' K eb Hmpos ltac:(lia) ltac:(lia) HK Hb2).
    rewrite E3. subst n2. revert Hnz.
    unfold fexp, SpecFloat.emin, prec, emax. lia. }
  assert (shr_m mrs'' * 2 ^ (e'' + 1074) <= B) as Hb3.
  { assert (2 ^ (e'' + 1074) = 2 ^ n2 * 2 ^ (e' + 1074)) as ->.
    { rewrite E3. rewrite <- Z.pow_add_r by lia. f_equal. lia. }
    assert (shr_m mrs'' * 2 ^ n2 <= m2).
    { rewrite M3. pose proof (Z.mul_div_le m2 (2 ^ n2) Hpn2). lia. }
    nia. }
  destruct (shr_m mrs'') as [|m3|m3] eqn:Em3; [exact I| |].
  - assert ((e'' <=? emax - prec) = true) as ->
      by (apply Z.leb_le; unfold emax, prec; lia).
    simpl. split; [lia|exact Hb3].
  - pose proof (Z.div_pos m2 (2 ^ n2) Hm2pos Hpn2) as Hq.
    rewrite <- M3 in Hq. lia.
Qed.

End RoundingBounds.

Section ArithmeticBounds.

Lemma small_mono B B' E E' x :
  B <= B' -> E <= E' -> small B E x -> small B' E' x.
Proof. destruct x; simpl; auto. lia. Qed.

Lemma small_opp B E x : small B E x -> small B E (SFopp x).
Proof. destruct x; simpl; auto. Qed.

Lemma small_not_nan B E x : small B E x -> is_nan x = false.
Proof. destruct x; simpl; auto. contradiction. Qed.

Lemma binary_round_small s p e K eb E :
  -1074 <= e <= E -> E <= 971 -> 0 < K < 2 ^ 53 -> -1074 <= eb <= E ->
  Zpos p * 2 ^ (e + 1074) <= K * 2 ^ (eb + 1074) ->
  small (K * 2 ^ (eb + 1074)) E (binary_round prec emax s p e).
Proof.
  intros He HE HK Heb Hle. unfold binary_round.
  destruct (shl_align_spec p e (fexp prec emax (Zpos (digits2_pos p) + e)))
    as [Hm Hz].
  destruct (shl_align p e _) as [mz ez]. cbn [fst snd] in *.
  assert (-1074 <= ez <= e) as Hez.
  { rewrite Hz. unfold fexp, SpecFloat.emin, prec, emax. lia. }
  apply binary_round_aux_small; try lia; [|intros H; contradiction].
  rewrite Hm, <- Z.mul_assoc, <- Z.pow_add_r by lia.
  replace (e - ez + (ez + 1074)) with (e + 1074) by lia. exact Hle.
Qed.

Lemma binary_normalize_small z e K eb E :
  -1074 <= e <= E -> E <= 971 -> 0 < K < 2 ^ 53 -> -1074 <= eb <= E ->
  Z.abs z * 2 ^ (e + 1074) <= K * 2 ^ (eb + 1074) ->
  small (K * 2 ^ (eb + 1074)) E (binary_normalize prec emax z e false).
Proof.
  intros He HE HK Heb Hle. destruct z as [|p|p]; cbn [binary_normalize];
    [exact I| |]; apply binary_round_small; auto.
Qed.

(** The two aligned mantissas of an addition or subtraction. *)
Lemma aligned_sum mx ex my ey Bx By :
  -1074 <= ex -> -1074 <= ey ->
  Zpos mx * 2 ^ (ex + 1074) <= Bx -> Zpos my * 2 ^ (ey + 1074) <= By ->
  (Zpos (shl_align mx ex (Z.min ex ey)).1 + Zpos (shl_align my ey (Z.min ex ey)).1)
    * 2 ^ (Z.min ex ey + 1074) <= Bx + By.
Proof.
  intros Hex Hey Hx Hy.
  destruct (shl_align_spec mx ex (Z.min ex ey)) as [Hm1 He1].
  destruct (shl_align_spec my ey (Z.min ex ey)) as [Hm2 He2].
  rewrite Hm1, Hm2, He1, He2.
  rewrite !Z.min_id || idtac.
  replace (Z.min ex (Z.min ex ey)) with (Z.min ex ey) by lia.
  replace (Z.min ey (Z.min ex ey)) with (Z.min ex ey) by lia.
  rewrite Z.mul_add_distr_r, <- !Z.mul_assoc, <- !Z.pow_add_r by lia.
  replace (ex - Z.min ex ey + (Z.min ex ey + 1074)) with (ex + 1074) by lia.
  replace (ey - Z.min ex ey + (Z.min ex ey + 1074)) with (ey + 1074) by lia.
  lia.
Qed.

Lemma abs_signed_sum sx sy (a b : positive) :
  Z.abs (cond_Zopp sx (Zpos a) + cond_Zopp sy (Zpos b)) <= Zpos a + Zpos b.
Proof. destruct sx, sy; cbn [cond_Zopp]; lia. Qed.

Lemma abs_signed_difference sx sy (a b : positive) :
  Z.abs (cond_Zopp sx (Zpos a) - cond_Zopp sy (Zpos b)) <= Zpos a + Zpos b.
Proof. destruct sx, sy; cbn [cond_Zopp]; lia. Qed.

Lemma add_small x y Bx By K eb E :
  small Bx E x -> small By E y -> 0 <= Bx -> 0 <= By ->
  Bx + By <= K * 2 ^ (eb + 1074) ->
  E <= 971 -> 0 < K < 2 ^ 53 -> -1074 <= eb <= E ->
  small (K * 2 ^ (eb + 1074)) E (add x y).
Proof.
  intros Hx Hy HBx HBy HB HE HK Heb.
  destruct x as [sx|sx| |sx mx ex], y as [sy|sy| |sy my ey];
    try contradiction; unfold add, SFadd.
  - destruct sx, sy; exact I.
  - eapply small_mono; [| |exact Hy]; lia.
  - eapply small_mono; [| |exact Hx]; lia.
  - destruct Hx as [Hex Hx], Hy as [Hey Hy].
    pose proof (aligned_sum mx ex my ey Bx By ltac:(lia) ltac:(lia) Hx Hy) as Hs.
    assert (0 < 2 ^ (Z.min ex ey + 1074)) by (apply Z.pow_pos_nonneg; lia).
    apply binary_normalize_small; try lia.
    eapply Z.le_trans; [|exact HB]. eapply Z.le_trans; [|exact Hs].
    apply Z.mul_le_mono_nonneg_r; [lia|].
    apply abs_signed_sum.
Qed.

Lemma sub_small x y Bx By K eb E :
  small Bx E x -> small By E y -> 0 <= Bx -> 0 <= By ->
  Bx + By <= K * 2 ^ (eb + 1074) ->
  E <= 971 -> 0 < K < 2 ^ 53 -> -1074 <= eb <= E ->
  small (K * 2 ^ (eb + 1074)) E (sub x y).
Proof.
  intros Hx Hy HBx HBy HB HE HK Heb.
  destruct x as [sx|sx| |sx mx ex], y as [sy|sy| |sy my ey];
    try contradiction; unfold sub, SFsub.
  - destruct sx, sy; exact I.
  - apply (small_mono By _ E E (S754_finite (negb sy) my ey)); [| |exact Hy]; lia.
  - eapply small_mono; [| |exact Hx]; lia.
  - destruct Hx as [Hex Hx], Hy as [Hey Hy].
    pose proof (aligned_sum mx ex my ey Bx By ltac:(lia) ltac:(lia) Hx Hy) as Hs.
    assert (0 < 2 ^ (Z.min ex ey + 1074)) by (apply Z.pow_pos_nonneg; lia).
    apply binary_normalize_small; try lia.
    eapply Z.le_trans; [|exact HB]. eapply Z.le_trans; [|exact Hs].
    apply Z.mul_le_mono_nonneg_r; [lia|].
    apply abs_signed_difference.
Qed.

(** A left-to-right sum of [n] numbers below [2^b] is below [n * 2^b]. *)
Lemma fold_add_small b E (l : list float) : forall k acc,
  -1074 <= b <= E -> E <= 971 -> 0 <= k ->
  k + len l < 2 ^ 53 ->
  small (k * 2 ^ (b + 1074)) E acc ->
  Forall (small (2 ^ (b + 1074)) E) l ->
  small ((k + len l) * 2 ^ (b + 1074)) E (fold_left add l acc).
Proof.
  induction l as [|x l IH]; intros k acc Hb HE Hk Hn Hacc Hl.
  - unfold len; simpl. rewrite Z.add_0_r. exact Hacc.
  - inversion Hl as [|? ? Hx Hl']; subst. cbn [fold_left].
    assert (len (x :: l) = 1 + len l) as Hlen
      by (unfold len; cbn [length]; lia).
    rewrite Hlen in *.
    assert (0 <= len l) by (unfold len; lia).
    assert (0 < 2 ^ (b + 1074)) by (apply Z.pow_pos_nonneg; lia).
    replace (k + (1 + len l)) with ((k + 1) + len l) by lia.
    apply IH; auto; try lia.
    eapply add_small; [exact Hacc|exact Hx| | | | | |]; try lia.
Qed.

Lemma sum_left_small b E (l : list float) :
  -1074 <= b <= E -> E <= 971 -> len l < 2 ^ 53 ->
  Forall (small (2 ^ (b + 1074)) E) l ->
  small (len l * 2 ^ (b + 1074)) E (sum_left l).
Proof.
  intros Hb HE Hn Hl. unfold sum_left.
  apply (fold_add_small b E l 0 pos_zero); auto; try lia. exact I.
Qed.

End ArithmeticBounds.

Section NoOverflow.

Lemma Zdigits2_unique m k :
  0 < k -> 2 ^ (k - 1) <= m < 2 ^ k -> Zdigits2 m = k.
Proof.
  intros Hk [Hlo Hhi].
  assert (0 < 2 ^ (k - 1)) by (apply Z.pow_pos_nonneg; lia).
  assert (0 < m) as Hm by lia.
  destruct (Zdigits2_bounds m Hm) as (Hd & _ & Hup).
  assert (Zdigits2 m <= k) by (apply Zdigits2_le; lia).
  assert (2 ^ (k - 1) < 2 ^ Zdigits2 m) as Hp by lia.
  apply pow2_lt_exp in Hp; lia.
Qed.

(** An integer below [2^53] converts exactly. *)
Lemma of_int_exact n :
  0 < n < 2 ^ 53 ->
  exists m e, of_int n = S754_finite false m e /\ -52 <= e <= 0 /\
              Zpos m = n * 2 ^ (- e).
Proof.
  intros [Hn Hlt]. destruct n as [|p|p]; try lia.
  unfold of_int, binary_normalize, binary_round.
  destruct (shl_align_spec p 0 (fexp prec emax (Zpos (digits2_pos p) + 0)))
    as [Hm Hz].
  destruct (shl_align p 0 _) as [mz ez]. cbn [fst snd] in *.
  destruct (Zdigits2_bounds (Zpos p) ltac:(lia)) as (Hd & Hlo & Hup).
  assert (Zdigits2 (Zpos p) <= 53) as Hd53 by (apply Zdigits2_le; lia).
  cbn [Zdigits2] in Hd, Hlo, Hup, Hd53.
  set (d := Zpos (digits2_pos p)) in *.
  assert (ez = d - 53) as Hez.
  { rewrite Hz. unfold fexp, SpecFloat.emin, prec, emax. lia. }
  assert (Zdigits2 (Zpos mz) = 53) as Hdz.
  { apply Zdigits2_unique; [lia|]. rewrite Hm, Hez.
    replace (0 - (d - 53)) with (53 - d) by lia.
    assert (0 < 2 ^ (53 - d)) by (apply Z.pow_pos_nonneg; lia).
    replace (2 ^ (53 - 1)) with (2 ^ (d - 1) * 2 ^ (53 - d))
      by (rewrite <- Z.pow_add_r by lia; f_equal; lia).
    replace (2 ^ 53) with (2 ^ d * 2 ^ (53 - d))
      by (rewrite <- Z.pow_add_r by lia; f_equal; lia).
    split; [apply Z.mul_le_mono_nonneg_r; lia|apply Z.mul_lt_mono_pos_r; lia]. }
  exists mz, ez. split; [|split; [lia|rewrite Hm; f_equal; f_equal; lia]].
  apply binary_round_aux_canonical.
  unfold bounded, canonical_mantissa. cbn [Zdigits2] in Hdz. rewrite Hdz.
  apply andb_true_iff; split; [apply Z.eqb_eq|apply Z.leb_le];
    unfold fexp, SpecFloat.emin, prec, emax; lia.
Qed.

Lemma new_location_exact n : new_location n 0 = loc_Exact.
Proof.
  unfold new_location, new_location_even, new_location_odd.
  destruct (Z.even n); reflexivity.
Qed.

Lemma quotient_bound q r mn n Q mS T P V U :
  0 < n -> 0 < Q -> 0 < P -> mn = n * Q -> mS * T = mn * q + r -> 0 <= r ->
  T * P = V * Q -> mS * V <= n * U ->
  q * P <= U /\ (0 < r -> q * P < U).
Proof.
  intros Hn HQ HP Hmn Hdiv Hr Hpow Hle.
  assert (q * P * (n * Q) + r * P = mS * V * Q) as Heq.
  { rewrite <- Hmn.
    replace (mS * V * Q) with (mS * T * P)
      by (rewrite <- !Z.mul_assoc; f_equal; exact Hpow).
    rewrite Hdiv. ring. }
  assert (mS * V * Q <= n * U * Q) as Hle'
    by (apply Z.mul_le_mono_nonneg_r; lia).
  assert (0 < n * Q) as HnQ by (apply Z.mul_pos_pos; lia).
  assert (0 <= r * P) as HrP by (apply Z.mul_nonneg_nonneg; lia).
  split.
  - apply (Z.mul_le_mono_pos_r _ _ (n * Q) HnQ). lia.
  - intros Hr0. assert (0 < r * P) by (apply Z.mul_pos_pos; lia).
    apply (Z.mul_lt_mono_pos_r (n * Q) _ _ HnQ). lia.
Qed.

(** The quotient of a number below [n * 2^c] by [n] is below [2^c], rounded
    or not. *)
Lemma div_of_int_small S n c E :
  0 < n < 2 ^ 53 -> -1022 <= c <= 1023 ->
  small (n * 2 ^ (c + 1074)) E S ->
  small (2 ^ 52 * 2 ^ (c - 52 + 1074)) (c - 52) (div S (of_int n)).
Proof.
  intros Hn Hc HS.
  destruct (of_int_exact n Hn) as (mn & en & -> & Hen & Hmn).
  destruct S as [sS|sS| |sS mS eS]; try contradiction; [exact I|].
  destruct HS as [HeS HvS].
  unfold div, SFdiv, SFdiv_core_binary. cbv zeta.
  set (d1 := Zdigits2 (Zpos mS)). set (d2 := Zdigits2 (Zpos mn)).
  set (e' := Z.min (fexp prec emax (d1 + eS - (d2 + en))) (eS - en)).
  assert (0 <= eS - en - e') as Hs by (subst e'; lia).
  assert (match eS - en - e' with
          | 0 => Zpos mS
          | Zpos _ => Z.shiftl (Zpos mS) (eS - en - e')
          | Zneg _ => 0
          end = Zpos mS * 2 ^ (eS - en - e')) as ->.
  { destruct (eS - en - e') as [|t|t] eqn:Et; [simpl; lia| |lia].
    rewrite Z.shiftl_mul_pow2 by lia. reflexivity. }
  set (T := 2 ^ (eS - en - e')).
  pose proof (Z.div_eucl_eq (Zpos mS * T) (Zpos mn) ltac:(lia)) as Hdiv.
  pose proof (Z.mod_pos_bound (Zpos mS * T) (Zpos mn) ltac:(lia)) as Hr.
  unfold Z.modulo in Hr.
  destruct (Z.div_eucl (Zpos mS * T) (Zpos mn)) as [q r].
  assert (0 < T) as HT by (apply Z.pow_pos_nonneg; lia).
  assert (0 < 2 ^ (- en)) as HQ by (apply Z.pow_pos_nonneg; lia).
  assert (-1074 <= e') as He'lo.
  { subst e'. unfold fexp, SpecFloat.emin, prec, emax. lia. }
  assert (0 < 2 ^ (e' + 1074)) as HP by (apply Z.pow_pos_nonneg; lia).
  assert (0 < 2 ^ (eS + 1074)) as HV by (apply Z.pow_pos_nonneg; lia).
  assert (0 < 2 ^ (c + 1074)) as HU by (apply Z.pow_pos_nonneg; lia).
  assert (T * 2 ^ (e' + 1074) = 2 ^ (eS + 1074) * 2 ^ (- en)) as Hpow.
  { subst T. rewrite <- !Z.pow_add_r by lia. f_equal. lia. }
  destruct (quotient_bound q r (Zpos mn) n (2 ^ (- en)) (Zpos mS) T
              (2 ^ (e' + 1074)) (2 ^ (eS + 1074)) (2 ^ (c + 1074)))
    as [Hq Hqr]; auto; try lia.
  assert (d1 + eS - (d2 + en) <= c) as Hmag.
  { destruct (Zdigits2_bounds (Zpos mS) ltac:(lia)) as (Hd1 & Hlo1 & _).
    destruct (Zdigits2_bounds (Zpos mn) ltac:(lia)) as (Hd2 & _ & Hup2).
    fold d1 in Hd1, Hlo1. fold d2 in Hd2, Hup2.
    assert (2 ^ (d1 - 1 + (eS + 1074) + - en) < 2 ^ (d2 + (c + 1074))) as Hp.
    { rewrite (Z.pow_add_r 2 (d1 - 1 + (eS + 1074))),
        (Z.pow_add_r 2 (d1 - 1)), (Z.pow_add_r 2 d2) by lia.
      apply Z.le_lt_trans with (Zpos mS * 2 ^ (eS + 1074) * 2 ^ (- en)).
      { apply Z.mul_le_mono_nonneg_r; [lia|].
        apply Z.mul_le_mono_nonneg_r; lia. }
      apply Z.le_lt_trans with (n * 2 ^ (c + 1074) * 2 ^ (- en)).
      { apply Z.mul_le_mono_nonneg_r; lia. }
      replace (n * 2 ^ (c + 1074) * 2 ^ (- en))
        with (Zpos mn * 2 ^ (c + 1074)) by (rewrite Hmn; ring).
      apply Z.mul_lt_mono_pos_r; lia. }
    apply pow2_lt_exp in Hp; lia. }
  assert (e' <= c - 53 \/ e' = -1074) as He'hi.
  { subst e'. unfold fexp, SpecFloat.emin, prec, emax. lia. }
  assert (2 ^ 52 * 2 ^ (c - 52 + 1074) = 2 ^ (c + 1074)) as HB.
  { rewrite <- Z.pow_add_r by lia. f_equal. lia. }
  apply binary_round_aux_small; [|lia|lia|lia|lia| |].
  - pose proof (Z.mul_pos_pos _ _ (Pos2Z.is_pos mS) HT) as Hpos.
    destruct (Z_lt_ge_dec q 0) as [Hneg|]; [|lia].
    assert (Zpos mn * q <= Zpos mn * (-1)) by (apply Z.mul_le_mono_nonneg_l; lia).
    lia.
  - rewrite HB. exact Hq.
  - intros Hloc. rewrite HB.
    assert (0 < r) as Hr0.
    { destruct (Z.eq_dec r 0) as [->|]; [|lia].
      rewrite new_location_exact in Hloc. contradiction. }
    specialize (Hqr Hr0).
    assert (2 ^ (c + 1074) = 2 ^ (c - e') * 2 ^ (e' + 1074)) as HG.
    { rewrite <- Z.pow_add_r by lia. f_equal. lia. }
    rewrite HG in Hqr |- *. apply grid_step; auto.
Qed.

(** Squaring a number below [2^511] does not overflow. *)
Lemma pow_2_small c E y :
  small (2 ^ (c + 1074)) E y -> E <= c -> 2 * E <= 971 -> 2 * c + 1 <= 1023 ->
  exists r, pow_2 y = Ok r.
Proof.
  intros Hy HE H2E H2c.
  destruct y as [s|s| |s m e]; try contradiction; [eexists; reflexivity|].
  destruct Hy as [He Hv]. unfold pow_2.
  assert (forall s', mul (S754_finite false m e) (S754_finite false m e)
                     <> S754_infinity s') as Hfin.
  { unfold mul, SFmul. cbn [xorb].
    apply binary_round_aux_not_inf; [lia| |lia].
    assert (0 < 2 ^ (e + 1074)) as HP by (apply Z.pow_pos_nonneg; lia).
    assert (Zpos m <= 2 ^ (c - e)) as Hm.
    { apply (Z.mul_le_mono_pos_r _ _ (2 ^ (e + 1074)) HP).
      rewrite <- Z.pow_add_r by lia.
      replace (c - e + (e + 1074)) with (c + 1074) by lia. exact Hv. }
    assert (Zdigits2 (Zpos (m * m)) <= 2 * (c - e) + 1); [|lia].
    apply Zdigits2_le; [lia|]. split; [lia|].
    rewrite Pos2Z.inj_mul.
    replace (2 * (c - e) + 1) with ((c - e) + (c - e) + 1) by lia.
    rewrite !Z.pow_add_r by lia. change (2 ^ 1) with 2.
    assert (0 < 2 ^ (c - e)) by (apply Z.pow_pos_nonneg; lia).
    assert (Zpos m * Zpos m <= 2 ^ (c - e) * 2 ^ (c - e))
      by (apply Z.mul_le_mono_nonneg; lia).
    lia. }
  destruct (mul _ _) as [t|t| |t m' e'];
    try (eexists; reflexivity). exfalso. exact (Hfin t eq_refl).
Qed.

Lemma moderate_small x : moderate x -> small (2 ^ (510 + 1074)) 458 x.
Proof.
  intros (Hv & Hlo & Hhi).
  change (lit (-0x1p510)) with (S754_finite true 4503599627370496 458) in Hlo.
  change (lit 0x1p510) with (S754_finite false 4503599627370496 458) in Hhi.
  destruct x as [s|s| |s m e]; [exact I| | |].
  - destruct s; [discriminate Hlo|discriminate Hhi].
  - discriminate Hlo.
  - unfold valid, valid_binary, bounded, canonical_mantissa in Hv.
    apply andb_true_iff in Hv as [Hc He].
    apply Z.eqb_eq in Hc. apply Z.leb_le in He.
    destruct (Zdigits2_bounds (Zpos m) ltac:(lia)) as (Hd & _ & Hup).
    cbn [Zdigits2] in Hd, Hup.
    assert (Zpos (digits2_pos m) <= 53 /\ -1074 <= e) as [Hd53 Hemin].
    { revert Hc. unfold fexp, SpecFloat.emin, prec, emax. lia. }
    assert (Zpos m < 2 ^ 53) as Hm53.
    { eapply Z.lt_le_trans; [exact Hup|]. apply Z.pow_le_mono_r; lia. }
    assert (e < 458 \/ (e = 458 /\ Zpos m <= 4503599627370496)) as Hcase.
    { destruct s.
      - apply leb_key in Hlo; [|reflexivity|reflexivity].
        cbn [key lex_le] in Hlo. lia.
      - apply leb_key in Hhi; [|reflexivity|reflexivity].
        cbn [key lex_le] in Hhi. lia. }
    cbn [small]. split; [lia|].
    replace (2 ^ (510 + 1074)) with (2 ^ 53 * 2 ^ (457 + 1074))
      by (rewrite <- Z.pow_add_r by lia; f_equal).
    destruct Hcase as [Hlt|[-> Hm]].
    + assert (2 ^ (e + 1074) <= 2 ^ (457 + 1074))
        by (apply Z.pow_le_mono_r; lia).
      assert (0 < 2 ^ (e + 1074)) by (apply Z.pow_pos_nonneg; lia).
      apply Z.mul_le_mono_nonneg; lia.
    + replace (2 ^ (458 + 1074)) with (2 * 2 ^ (457 + 1074))
        by (rewrite <- Z.pow_succ_r by lia; f_equal).
      rewrite Z.mul_assoc.
      apply Z.mul_le_mono_nonneg_r; [apply Z.pow_nonneg; lia|].
      change (2 ^ 53) with 9007199254740992. lia.
Qed.

(** With the left-to-right [sum], no square on line 84 overflows when the
    values are moderate. *)
Lemma squares_do_not_overflow (values : list float) :
  Forall moderate values -> 0 < len values < 2 ^ 53 ->
  Forall
    (fun x => exists r,
       pow_2 (sub x (div (sum_left values) (of_int (len values)))) = Ok r)
    values.
Proof.
  intros Hmod Hlen.
  assert (Forall (small (2 ^ (510 + 1074)) 458) values) as Hsmall.
  { eapply List.Forall_impl; [|exact Hmod]. apply moderate_small. }
  assert (small (len values * 2 ^ (510 + 1074)) 510 (sum_left values)) as HS.
  { apply sum_left_small; try lia.
    eapply List.Forall_impl; [|exact Hsmall].
    intros a. apply small_mono; lia. }
  apply (div_of_int_small _ _ 510 510) in HS; [|lia|lia].
  eapply List.Forall_impl; [|exact Hsmall]. intros x Hx. cbv beta.
  apply (pow_2_small 511 459); try lia.
  replace (2 ^ (511 + 1074)) with (2 ^ 52 * 2 ^ (459 + 1074))
    by (rewrite <- Z.pow_add_r by lia; f_equal).
  assert (0 < 2 ^ (510 + 1074)) by (apply Z.pow_pos_nonneg; lia).
  apply (sub_small _ _ (2 ^ (510 + 1074)) (2 ^ 52 * 2 ^ (510 - 52 + 1074))
           (2 ^ 52) 459 459);
    [eapply small_mono; [| |exact Hx]; [reflexivity|lia]
    |eapply small_mono; [| |exact HS]; [reflexivity|lia]
    |lia| | |lia|lia|lia].
  - apply Z.mul_nonneg_nonneg; apply Z.pow_nonneg; lia.
  - replace (2 ^ 52 * 2 ^ (510 - 52 + 1074)) with (2 ^ (510 + 1074))
      by (rewrite <- Z.pow_add_r by lia; f_equal).
    replace (2 ^ 52 * 2 ^ (459 + 1074)) with (2 * 2 ^ (510 + 1074))
      by (rewrite <- (Z.pow_add_r 2 52), <- Z.pow_succ_r by lia; f_equal).
    lia.
Qed.

Lemma analyze_moderate_ok (data : list DataPoint) :
  Forall moderate (map value data) -> len data < 2 ^ 53 ->
  exists r, analyze_data sum_left data = Ok r.
Proof.
  intros Hmod Hlen.
  destruct data as [|p data']; [eexists; reflexivity|].
  set (data := p :: data') in *.
  assert (data <> []) as Hne by discriminate.
  destruct (analyze_data sum_left data) as [r|e] eqn:Ea; [eauto|exfalso].
  destruct (analyze_data_raise sum_left data e sum_left_nonneg Hne Ea)
    as [_ Hex].
  apply List.Exists_exists in Hex as (x & Hin & Hx).
  assert (len (map value data) = len data) as Hl
    by (unfold len; rewrite length_map; reflexivity).
  assert (0 < len (map value data)) as Hpos
    by (rewrite Hl; unfold len; subst data; cbn [length]; lia).
  pose proof (squares_do_not_overflow (map value data) Hmod ltac:(lia)) as Hsq.
  rewrite List.Forall_forall in Hsq. destruct (Hsq x Hin) as [r Hr].
  rewrite Hr in Hx. discriminate.
Qed.

(** X9.  With the left-to-right [sum], [analyze] returns a result, whatever
    the order and signs of the values, when every value is a binary64 number
    of magnitude at most [2^510] and there are fewer than [2^53] of them:
    no square on line 84 overflows. *)
Theorem analyze_returns_on_moderate_values (data : list DataPoint) :
  Forall moderate (map value data) ->
  len data < 2 ^ 53 ->
  exists r, analyze_data sum_left data = Ok r.
Proof. apply analyze_moderate_ok. Qed.

End NoOverflow.

(** ** Analysing a generated sample *)

Section GeneratedSample.

Lemma hundredths_moderate_ok :
  forallb
    (fun k => valid (of_hundredths false k)
              && leb (lit (-0x1p510)) (of_hundredths false k)
              && leb (of_hundredths false k) (lit 0x1p510))
    (map (fun i => 1000 + Z.of_nat i) (seq 0 (Z.to_nat 9001))) = true.
Proof. vm_compute. reflexivity. Qed.

Lemma of_hundredths_moderate k :
  1000 <= k <= 10000 -> moderate (of_hundredths false k).
Proof.
  intros Hk. pose proof hundredths_moderate_ok as H.
  rewrite forallb_forall in H.
  assert (In k (map (fun i => 1000 + Z.of_nat i) (seq 0 (Z.to_nat 9001))))
    as Hin.
  { apply in_map_iff. exists (Z.to_nat (k - 1000)). split; [lia|].
    apply in_seq. lia. }
  apply H in Hin. apply andb_true_iff in Hin as [Hin H3].
  apply andb_true_iff in Hin as [H1 H2]. repeat split; assumption.
Qed.

Variable rng : Type.
Variable uniform : Z -> Z -> rng -> float * rng.
Variable isoformat : Z -> string.

(** X10.  With the left-to-right [sum], [analyze] applied to the data of a
    generated sample returns a result; its [count] is the [count] of the
    response and, when the sample is not empty, its [min] and [max] lie in
    [[10, 100]].  [random.uniform(10, 100)] is taken by its contract. *)
Theorem analyze_generated_sample (count_ now : Z) (g : rng) :
  (forall g', valid (uniform 10 100 g').1 = true /\
              le (of_int 10) (uniform 10 100 g').1 /\
              le (uniform 10 100 g').1 (of_int 100)) ->
  let response := (generate_sample_data rng uniform isoformat count_ now g).1 in
  exists r,
    analyze_data sum_left (data response) = Ok r /\
    count r = data_count response /\
    (0 < count_ ->
     le (of_int 10) (min r) /\ le (min r) (of_int 100) /\
     le (of_int 10) (max r) /\ le (max r) (of_int 100)).
Proof.
  intros Hu response. subst response. unfold generate_sample_data.
  set (c := if 1000 <? count_ then 1000 else count_).
  set (P := fun p => moderate (value p) /\
                     le (of_int 10) (value p) /\ le (value p) (of_int 100)).
  destruct (sample_points_spec rng uniform isoformat P now (range c))
    with (g := g) as [Hlen Hall].
  { intros g' i. unfold P. cbn [value]. destruct (Hu g') as (Hv & Hlo & Hhi).
    split; [|apply round2_range; assumption].
    destruct (round2_hundredths_range _ Hv Hlo Hhi) as (k & Hk & ->).
    apply of_hundredths_moderate. exact Hk. }
  destruct (sample_points rng uniform isoformat now (range c) g) as [ps g'].
  cbn [fst snd data data_count] in *.
  assert (len ps = Z.max 0 c) as Hps.
  { unfold len. rewrite Hlen. unfold range.
    rewrite length_map, length_seq. lia. }
  assert (Forall (fun x => moderate x /\ le (of_int 10) x /\ le x (of_int 100))
                 (map value ps)) as Hvalues.
  { rewrite List.Forall_map. exact Hall. }
  destruct (analyze_moderate_ok ps) as [r Hr].
  { eapply List.Forall_impl; [|exact Hvalues]. intros x Hx. apply Hx. }
  { rewrite Hps. subst c. destruct (Z.ltb_spec 1000 count_); lia. }
  exists r. split; [exact Hr|].
  destruct ps as [|p ps'].
  - injection Hr as <-. split; [reflexivity|].
    intros Hc. exfalso. unfold len in Hps. cbn [length] in Hps.
    subst c. destruct (Z.ltb_spec 1000 count_); lia.
  - destruct (analyze_data_ok sum_left (p :: ps') r ltac:(discriminate) Hr)
      as (m1 & m2 & m3 & m4 & lo & hi & _ & _ & _ & _ & Hmin & Hmax & ->).
    cbn [count min max].
    split; [unfold len; rewrite length_map; reflexivity|]. intros _.
    apply min_In in Hmin. apply max_In in Hmax.
    rewrite List.Forall_forall in Hvalues.
    destruct (Hvalues lo Hmin) as (_ & H1 & H2).
    destruct (Hvalues hi Hmax) as (_ & H3 & H4). auto.
Qed.

End GeneratedSample.


(** ** Instances of the further properties on concrete inputs *)

Lemma toggle_uniform_contract (g : bool) :
  valid (toggle_uniform 10 100 g).1 = true /\
  le (of_int 10) (toggle_uniform 10 100 g).1 /\
  le (toggle_uniform 10 100 g).1 (of_int 100).
Proof. destruct g; repeat split; vm_compute; reflexivity. Qed.

Lemma generate_timestamps_witness :
  exists p,
    nth_error
      (data (generate_sample_data bool toggle_uniform decimal_isoformat
               3 5000000 true).1) 2 = Some p /\
    timestamp p = "3000000"%string.
Proof.
  eexists. split; [vm_compute; reflexivity|].
  apply (generate_timestamps bool toggle_uniform decimal_isoformat
           3 5000000 true 2).
  vm_compute. reflexivity.
Defined.

Lemma generate_values_are_hundredths_witness :
  Forall
    (fun p => exists k, 1000 <= k <= 10000 /\ value p = of_hundredths false k)
    (data (generate_sample_data bool toggle_uniform no_isoformat 3 0 true).1).
Proof.
  apply (generate_values_are_hundredths bool toggle_uniform no_isoformat 3 0 true).
  apply toggle_uniform_contract.
Defined.

Lemma lower_uniform_contract (g : nat) :
  valid (lower_uniform (lit 0.7) (lit 0.99) g).1 = true /\
  le (lit 0.7) (lower_uniform (lit 0.7) (lit 0.99) g).1 /\
  le (lower_uniform (lit 0.7) (lit 0.99) g).1 (lit 0.99).
Proof. repeat split; vm_compute; reflexivity. Qed.

Lemma ml_predict_confidence_witness :
  le (lit 0.7) (confidence (ml_predict nat lower_uniform (lit 2.0) O).1) /\
  le (confidence (ml_predict nat lower_uniform (lit 2.0) O).1) (lit 0.99).
Proof.
  destruct (ml_predict_confidence nat lower_uniform (lit 2.0) O
              lower_uniform_contract) as (H1 & H2 & _).
  split; [exact H1|exact H2].
Defined.

Lemma ml_predict_not_finite_witness :
  prediction (ml_predict nat lower_uniform (S754_infinity true) O).1
  = S754_infinity true.
Proof.
  apply (ml_predict_not_finite nat lower_uniform (S754_infinity true) O);
    [intros g'; split; vm_compute; reflexivity | reflexivity].
Defined.

Lemma std_dev_not_negative_witness :
  exists r,
    analyze_data sum_left (points_of small_input) = Ok r /\
    le pos_zero (std_dev r).
Proof.
  eexists. split; [vm_compute; reflexivity|].
  apply (std_dev_not_negative sum_left (points_of small_input));
    [apply sum_left_not_nan | apply sum_left_nonneg_not_nan
    | repeat constructor | reflexivity | vm_compute; reflexivity].
Defined.

Lemma analyze_nan_input_witness :
  exists r,
    analyze_data sum_compensated (points_of [lit 1.0; S754_nan]) = Ok r /\
    mean r = S754_nan /\ std_dev r = S754_nan.
Proof.
  apply (analyze_nan_input sum_compensated (points_of [lit 1.0; S754_nan]));
    [right; left; reflexivity | right; left; reflexivity].
Defined.

Lemma analyze_one_value_witness :
  analyze_data sum_left (points_of [lit 0.125])
  = Ok {| mean := lit 0.12; median := lit 0.12; std_dev := lit 0.0;
          min := lit 0.125; max := lit 0.125; count := 1 |}.
Proof.
  apply (analyze_one_value sum_left
           {| value := lit 0.125; timestamp := EmptyString |}
           false 4503599627370496 (-55));
    [left; reflexivity | vm_compute; reflexivity | vm_compute; reflexivity].
Defined.

Lemma analyze_returns_on_moderate_values_witness :
  exists r,
    analyze_data sum_left
      (points_of [lit 0x1p510; lit (-0x1p510); lit 0x1p510; lit 3]) = Ok r.
Proof.
  apply analyze_returns_on_moderate_values.
  - repeat (apply List.Forall_cons; [repeat split; vm_compute; reflexivity|]).
    apply List.Forall_nil.
  - vm_compute. reflexivity.
Defined.

Lemma analyze_generated_sample_witness :
  exists r,
    analyze_data sum_left
      (data (generate_sample_data bool toggle_uniform no_isoformat 3 0 true).1)
      = Ok r /\
    count r = 3 /\
    le (of_int 10) (min r) /\ le (max r) (of_int 100).
Proof.
  destruct (analyze_generated_sample bool toggle_uniform no_isoformat 3 0 true
              toggle_uniform_contract) as (r & Hr & Hc & Hm).
  exists r. split; [exact Hr|]. split; [exact Hc|].
  destruct (Hm ltac:(lia)) as (H1 & _ & _ & H4). split; [exact H1|exact H4].
Defined.
